(** * ESPurna: sensor quantities, energy accumulator and typed settings

    A shallow embedding of [code/espurna/sensor.h] and
    [code/espurna/settings.h].

    - [uint32_t] values are integers of [Z] with the wrap-around modulo
      [2^32] written out ([wrap32]);
    - the [double] values of the quantity types are IEEE binary64 floats
      ([PrimFloat.float]); the floating values of the settings layer,
      which has [float] and [double], are IEEE binary floats as signs,
      mantissas and exponents ([spec_float]): their decimal text is
      computed from the exact value of the float, and a decimal text is
      read as the nearest float of the format;
    - Arduino [String]s are [string]s;
    - the key-value store is a finite map from key text to value text.

    Member functions that the headers only declare (their bodies live in
    the [.cpp] files) are modelled from the specification; each such
    definition says so in its doc comment. *)

From Stdlib Require Import ZArith Zpower Lia Lqa Bool Ascii String.
From Stdlib Require Import PrimFloat Uint63 SpecFloat FloatOps FloatAxioms.
From Stdlib Require Import QArith Qabs Qround.
From stdpp Require Import gmap strings list.
From Equations Require Import Equations.

Local Open Scope Z_scope.

(** ** Fixed-width integers *)

Definition UINT32_MAX : Z := 4294967295.

(** [static_cast<uint32_t>] of a mathematical integer. *)
Definition wrap32 (z : Z) : Z := z mod 2 ^ 32.

(** The values a [uint32_t] holds. *)
Definition is_u32 (z : Z) : Prop := 0 <= z <= UINT32_MAX.

(** ** [std::ratio] *)

Module Ratio.

Record ratio : Type := mk { num : Z; den : Z }.

(** [std::ratio<N, D>]: the members [num] and [den] are always in
    lowest terms, with a positive denominator. *)
Definition make (n d : Z) : ratio :=
  let g := Z.gcd n d in
  {| num := Z.sgn d * n / g; den := Z.abs d / g |}.

Definition ratio_multiply (a b : ratio) : ratio :=
  make (num a * num b) (den a * den b).

Definition ratio_divide (a b : ratio) : ratio :=
  make (num a * den b) (den a * num b).

End Ratio.

(** ** [espurna::duration] *)

Module duration.

(** Modelled from the spec: [system.h], which declares
    [espurna::duration::Seconds] and [espurna::duration::Hours], is not
    part of the sources at hand.  The spec gives one kilowatt-hour as
    [1000 W x 3600 s], so the periods are the ones of [std::chrono]:
    one second, and 3600 seconds. *)
Definition Seconds_period : Ratio.ratio := Ratio.make 1 1.
Definition Hours_period : Ratio.ratio := Ratio.make 3600 1.

End duration.

(** ** [espurna::sensor] *)

Module sensor.

Import Ratio.

(** *** Arithmetic of a quantity's [Type]

    [Convert::from] multiplies and divides in the value type of the
    quantity.  [arith_cast] is [static_cast<Type>] applied to a
    [std::intmax_t] member of a ratio. *)
Class Arith (T : Type) : Type := {
  arith_mul : T -> T -> T;
  arith_div : T -> T -> T;
  arith_cast : Z -> T
}.

Definition uint32_t : Type := Z.
Definition double : Type := float.

(** Unsigned 32-bit arithmetic: the product wraps, the quotient
    truncates. *)
#[export] Instance uint32_arith : Arith uint32_t := {
  arith_mul a b := wrap32 (a * b);
  arith_div a b := Z.quot a b;
  arith_cast z := wrap32 z
}.

Definition double_of_Z (z : Z) : float :=
  if z <? 0 then PrimFloat.opp (PrimFloat.of_uint63 (Uint63.of_Z (- z)))
  else PrimFloat.of_uint63 (Uint63.of_Z z).

#[export] Instance double_arith : Arith double := {
  arith_mul := PrimFloat.mul;
  arith_div := PrimFloat.div;
  arith_cast := double_of_Z
}.

(** *** Quantity types

    A quantity struct is its [Ratio]; the index [T] is its [Type]
    member. *)
Record Quantity (T : Type) : Type := { Ratio : ratio }.
Arguments Ratio {T} _.

Definition Watts : Quantity double := {| Ratio := make 1 1 |}.

Definition WattSeconds : Quantity uint32_t :=
  {| Ratio := ratio_multiply (Ratio Watts) duration.Seconds_period |}.

Definition WattHours : Quantity uint32_t :=
  {| Ratio := ratio_multiply (Ratio Watts) duration.Hours_period |}.

Definition Kilowatts : Quantity double := {| Ratio := make 1000 1 |}.

Definition KilowattHours : Quantity uint32_t :=
  {| Ratio := ratio_multiply (Ratio Kilowatts) duration.Hours_period |}.

(** [Convert<To, From>::from], for the instantiations in which [To] and
    [From] have the same [Type] (every pair of quantities of one
    physical dimension: the power quantities are [double], the energy
    quantities [uint32_t]). *)
Definition Divide {T} (To From : Quantity T) : ratio :=
  ratio_divide (Ratio From) (Ratio To).

Definition Convert {T} `{Arith T} (To From : Quantity T) (from : T) : T :=
  arith_div
    (arith_mul from (arith_cast (num (Divide To From))))
    (arith_cast (den (Divide To From))).

(** The exact value of a finite [double], scaled by [2^1074]: the least
    exponent of the binary64 format is -1074, so the scaled value is an
    integer.  There is none for NaN and the infinities. *)
Definition exact_value (x : double) : option Z :=
  match Prim2SF x with
  | S754_zero _ => Some 0
  | S754_finite s m e => Some (cond_Zopp s (Zpos m * 2 ^ (e + 1074)))
  | _ => None
  end.

(** The floats [1] and [1000] as sign, mantissa and exponent. *)
Definition SF_1 : spec_float := S754_finite false 4503599627370496 (-52).
Definition SF_1000 : spec_float := S754_finite false 8796093022208000 (-43).

(** The value [x] of the quantity [From] is representable in [To]: some
    [double] is exactly [x * (From::Ratio / To::Ratio)]. *)
Definition representable_in (To From : Quantity double) (x : double) : Prop :=
  exists (y : double) (vx vy : Z),
    exact_value x = Some vx /\ exact_value y = Some vy
    /\ vx * num (Divide To From) = vy * den (Divide To From).

(** The quantities of energy, the integer-valued ones. *)
Definition energy_quantities : list (Quantity uint32_t) :=
  [WattSeconds; WattHours; KilowattHours].

(** The quotient of the ratios of two energy quantities is in lowest
    terms, positive, fits 32 bits, and is the rational
    [From::Ratio / To::Ratio]. *)
Definition Divide_ok (To From : Quantity uint32_t) : bool :=
  let r := Divide To From in
  (0 <? num r) && (num r <=? UINT32_MAX)
  && (0 <? den r) && (den r <=? UINT32_MAX)
  && (Z.gcd (num r) (den r) =? 1)
  && (num r * (den (Ratio From) * num (Ratio To))
      =? den r * (num (Ratio From) * den (Ratio To))).

(** *** [Energy] *)

Record Energy : Type := { _kwh : Z; _ws : Z }.

Definition KwhMultiplier : Z := num (Ratio KilowattHours).
Definition KwhLimit : Z := UINT32_MAX / KwhMultiplier.

(** [Energy() = default]: both members are value-initialised to 0. *)
Definition Energy_default : Energy := {| _kwh := 0; _ws := 0 |}.

(** [Energy::pair()]. *)
Definition pair (e : Energy) : Z * Z := (_kwh e, _ws e).

(** Modelled from the spec: [Energy::reset] is only declared in
    [sensor.h] (sets internal counters to zero). *)
Definition reset (e : Energy) : Energy := {| _kwh := 0; _ws := 0 |}.

(** Modelled from the spec: [Energy::operator bool] is only declared in
    [sensor.h].  The spec: true iff the accumulator is in the
    [Accumulating] state, kwhPart and/or wsPart non-zero. *)
Definition Energy_bool (e : Energy) : bool :=
  negb (_kwh e =? 0) || negb (_ws e =? 0).

(** Modelled from the spec: the normalization loop of
    [Energy::operator+=]: while wsPart >= 3_600_000, subtract 3_600_000
    and increment kwhPart by 1.  Both counters are [uint32_t]. *)
Equations? normalize (kwh ws : Z) : Energy
  by wf (Z.to_nat (ws / KwhMultiplier)) lt :=
  normalize kwh ws with Z_lt_ge_dec ws KwhMultiplier := {
    | left _ => {| _kwh := kwh; _ws := ws |}
    | right _ => normalize (wrap32 (kwh + 1)) (ws - KwhMultiplier)
  }.
Proof.
  change KwhMultiplier with 3600000 in *.
  replace (ws - 3600000) with (ws + (-1) * 3600000) by lia.
  rewrite Z.div_add by lia.
  assert (1 <= ws / 3600000) by (apply Z.div_le_lower_bound; lia).
  lia.
Defined.

(** Modelled from the spec: [Energy::operator+=(WattSeconds)], only
    declared in [sensor.h]: add [delta.value] to wsPart, then
    normalize. *)
Definition accumulate (e : Energy) (delta : Z) : Energy :=
  normalize (_kwh e) (wrap32 (_ws e + delta)).

(** *** Magnitudes *)

Inductive Unit : Type :=
| Min_ | None_ | Celcius | Farenheit | Kelvin | Percentage | Hectopascal
| Ampere | Volt | Voltampere | Kilovoltampere | VoltampereReactive
| KilovoltampereReactive | Watt | Kilowatt | WattSecond | KilowattHour
| PartsPerMillion | Ohm | MicrogrammPerCubicMeter | MilligrammPerCubicMeter
| Lux | UltravioletIndex | CountsPerMinute | MicrosievertPerHour | Meter
| Hertz | Ph.

(** [Joule = WattSecond]. *)
Definition Joule : Unit := WattSecond.

Record Value : Type := {
  value_type : Z;
  value_index : Z;
  value_units : Unit;
  value_decimals : Z;
  value_value : double;
  value_topic : string;
  value_repr : string
}.

(** [Value::Unknown]. *)
Definition Unknown : double := PrimFloat.nan.

Record Info : Type := {
  info_type : Z;
  info_index : Z;
  info_units : Unit;
  info_decimals : Z;
  info_topic : string;
  info_description : string
}.

(** Modelled from the spec: the magnitude type constants are not part
    of the sources at hand; [MAGNITUDE_NONE] is the "none" sentinel
    type that [sensor.h] names in the comment on [magnitudeInfo]. *)
Definition MAGNITUDE_NONE : Z := 0.

(** Modelled from the spec: one registered magnitude slot.  It carries
    its descriptor, the most recent raw reading and the value last
    pushed to the reporting collaborator. *)
Record Magnitude : Type := {
  magnitude_info : Info;
  magnitude_last : Value;
  magnitude_reported : Value
}.

(** Modelled from the spec: the registry is the sequence of registered
    slots, together with the process-wide "real time" flag. *)
Record Registry : Type := {
  magnitudes : list Magnitude;
  realtime : bool
}.

(** Modelled from the spec: [magnitudeCount], only declared in
    [sensor.h]: the number of registered magnitude slots. *)
Definition magnitudeCount (r : Registry) : nat := length (magnitudes r).

(** Modelled from the spec: the sentinel records. *)
Definition Info_none : Info := {|
  info_type := MAGNITUDE_NONE; info_index := 0; info_units := None_;
  info_decimals := 0; info_topic := EmptyString;
  info_description := EmptyString
|}.

Definition Value_none : Value := {|
  value_type := MAGNITUDE_NONE; value_index := 0; value_units := None_;
  value_decimals := 0; value_value := Unknown; value_topic := EmptyString;
  value_repr := EmptyString
|}.

(** Modelled from the spec: the slot at a position of the backing
    sequence.  Reading past the end of the sequence is a fault: there
    is no result. *)
Definition magnitude_at (r : Registry) (index : nat) : option Magnitude :=
  magnitudes r !! index.

(** Modelled from the spec: [magnitudeInfo], only declared in
    [sensor.h]: bounds-checked, a "none"-typed sentinel when
    [index >= count()], the descriptor of the slot otherwise.  The
    [unsigned char] index is a natural number; no result is a fault. *)
Definition magnitudeInfo (r : Registry) (index : nat) : option Info :=
  if decide (index < magnitudeCount r)%nat
  then magnitude_info <$> magnitude_at r index
  else Some Info_none.

(** Modelled from the spec: [magnitudeValue], only declared in
    [sensor.h]: bounds-checked like [magnitudeInfo]; in "real time"
    mode the most recent raw reading, otherwise the last reported
    value. *)
Definition magnitudeValue (r : Registry) (index : nat) : option Value :=
  if decide (index < magnitudeCount r)%nat
  then (if realtime r then magnitude_last else magnitude_reported)
         <$> magnitude_at r index
  else Some Value_none.

(** A registry of two slots, a temperature and a humidity. *)
Definition example_registry : Registry :=
  {| magnitudes :=
       [ {| magnitude_info :=
              {| info_type := 1; info_index := 0; info_units := Celcius;
                 info_decimals := 1; info_topic := "temperature";
                 info_description := "DHT22 @ GPIO14" |};
            magnitude_last :=
              {| value_type := 1; value_index := 0; value_units := Celcius;
                 value_decimals := 1; value_value := 21.5%float;
                 value_topic := "temperature"; value_repr := "21.5" |};
            magnitude_reported :=
              {| value_type := 1; value_index := 0; value_units := Celcius;
                 value_decimals := 1; value_value := 21%float;
                 value_topic := "temperature"; value_repr := "21.0" |} |};
         {| magnitude_info :=
              {| info_type := 2; info_index := 0; info_units := Percentage;
                 info_decimals := 0; info_topic := "humidity";
                 info_description := "DHT22 @ GPIO14" |};
            magnitude_last :=
              {| value_type := 2; value_index := 0; value_units := Percentage;
                 value_decimals := 0; value_value := 40%float;
                 value_topic := "humidity"; value_repr := "40" |};
            magnitude_reported :=
              {| value_type := 2; value_index := 0; value_units := Percentage;
                 value_decimals := 0; value_value := 41%float;
                 value_topic := "humidity"; value_repr := "41" |} |} ];
     realtime := false |}.

End sensor.

(** ** [espurna::settings] *)

Module settings.

(** *** Arduino [String(value, base)]

    The [serialize] overloads of [settings.h] delegate to the Arduino
    [String] constructors, which are not part of the sources at hand. *)

(** Modelled from the spec: the character of one digit, ['0'] to ['9']
    and then ['a'] onwards. *)
Definition digit_char (d : Z) : ascii :=
  if d <? 10 then ascii_of_N (Z.to_N (48 + d))
  else ascii_of_N (Z.to_N (87 + d)).

(** Modelled from the spec: an unsigned integer in a caller-selectable
    base, most significant digit first, without padding. *)
Equations? utoa (base value : Z) : string
  by wf (Z.to_nat (Z.log2 value)) lt :=
  utoa base value with decide (2 <= base /\ base <= value) := {
    | left _ => utoa base (value / base)
                  +:+ String (digit_char (value mod base)) EmptyString
    | right _ => String (digit_char value) EmptyString
  }.
Proof.
  assert (value / base <= value / 2) by (apply Z.div_le_compat_l; lia).
  assert (Z.log2 (value / base) <= Z.log2 (value / 2)) by (apply Z.log2_le_mono; lia).
  assert (1 <= Z.log2 value) by (apply Z.log2_le_pow2; simpl; lia).
  assert (Z.log2 (value / 2) = Z.log2 value - 1).
  { rewrite <- Z.div2_div, Z.div2_spec, Z.log2_shiftr by lia. lia. }
  pose proof (Z.log2_nonneg (value / base)).
  lia.
Defined.

(** Modelled from the spec: a signed integer; a negative value is the
    minus sign followed by its magnitude. *)
Definition itoa (base value : Z) : string :=
  if value <? 0 then String "-" (utoa base (- value)) else utoa base value.

(** *** Primitive setting types *)

Inductive IntType : Type :=
| SignedChar | Short | Int | Long
| UnsignedChar | UnsignedShort | UnsignedInt | UnsignedLong.

Definition is_signed (t : IntType) : bool :=
  match t with
  | SignedChar | Short | Int | Long => true
  | _ => false
  end.

(** Widths of the target: [int] and [long] are both 32 bits wide. *)
Definition bits (t : IntType) : Z :=
  match t with
  | SignedChar | UnsignedChar => 8
  | Short | UnsignedShort => 16
  | Int | Long | UnsignedInt | UnsignedLong => 32
  end.

Definition min_value (t : IntType) : Z :=
  if is_signed t then - 2 ^ (bits t - 1) else 0.

Definition max_value (t : IntType) : Z :=
  if is_signed t then 2 ^ (bits t - 1) - 1 else 2 ^ bits t - 1.

Definition in_range (t : IntType) (x : Z) : Prop :=
  min_value t <= x <= max_value t.

Inductive SettingType : Type :=
| TInt (t : IntType)
| TBool
| TFloat
| TDouble.

(** The values of a primitive type.  A value of a floating type is an
    IEEE binary float: a signed zero, an infinity, NaN, or a sign, a
    mantissa and an exponent.  The floats of [float] are those of the
    binary32 format (24 digits of mantissa, exponents below 128), the
    ones of [double] those of binary64 (53 digits, exponents below
    1024). *)
Definition value_of (T : SettingType) : Type :=
  match T with
  | TInt _ => Z
  | TBool => bool
  | TFloat | TDouble => spec_float
  end.

(** The type's zero-equivalent. *)
Definition zero (T : SettingType) : value_of T :=
  match T with
  | TInt _ => 0
  | TBool => false
  | TFloat | TDouble => S754_zero false
  end.

(** *** [internal::serialize] *)

Definition serialize_uint8 (value : Z) (base : Z) : string := utoa base value.
Definition serialize_uint16 (value : Z) (base : Z) : string := utoa base value.

(** Modelled from the spec: [serialize(uint32_t, int)] is only declared
    in [settings.h]. *)
Definition serialize_uint32 (value : Z) (base : Z) : string := utoa base value.

Definition serialize_ulong (value : Z) (base : Z) : string :=
  serialize_uint32 (wrap32 value) base.

Definition serialize_int16 (value : Z) (base : Z) : string := itoa base value.
Definition serialize_int32 (value : Z) (base : Z) : string := itoa base value.

(** [static_cast<int32_t>] of an [int8_t] keeps the value. *)
Definition serialize_int8 (value : Z) (base : Z) : string :=
  serialize_int32 value base.

Definition serialize_long (value : Z) (base : Z) : string := itoa base value.

Definition serialize_bool (value : bool) : string :=
  if value then "true" else "false".

(** Modelled from the spec: [String(value, 3)], floating point with
    fixed 3-decimal precision: the magnitude is rounded to the nearest
    thousandth and printed as integer part, point and three digits. *)
Definition thousandths (x : Q) : Z := Qfloor (Qabs x * 1000 + (1 # 2)).

(** Modelled from the spec: the text of [String(value, 3)]. *)
Definition String_fixed3 (x : Q) : string :=
  let n := thousandths x in
  (if (Qnum x <? 0) && (0 <? n) then "-" else EmptyString)
    +:+ utoa 10 (n / 1000)
    +:+ String "." (String (digit_char (n / 100 mod 10))
                   (String (digit_char (n / 10 mod 10))
                   (String (digit_char (n mod 10)) EmptyString))).

(** The exact value of a finite float, [m * 2^e] with its sign, as
    the fraction of [m * 2^e] by 1 or of [m] by [2^(-e)]. *)
Definition SF2Q (f : spec_float) : option Q :=
  match f with
  | S754_zero _ => Some 0%Q
  | S754_finite s m e =>
      Some (cond_Zopp s (Zpos m * 2 ^ Z.max 0 e) # Z.to_pos (2 ^ Z.max 0 (- e)))
  | _ => None
  end.

(** Modelled from the spec: [String(value, 3)] of a floating value: the
    exact value of a finite float with three decimals.  NaN and the
    infinities have no decimals; their texts are "nan" and "inf". *)
Definition String_floating (value : spec_float) : string :=
  match value with
  | S754_nan => "nan"
  | S754_infinity _ => "inf"
  | f => String_fixed3 (default 0%Q (SF2Q f))
  end.

Definition serialize_float (value : spec_float) : string :=
  String_floating value.

Definition serialize_double (value : spec_float) : string :=
  String_floating value.

(** [serialize] at the default base. *)
Definition serialize (T : SettingType) : value_of T -> string :=
  match T with
  | TInt SignedChar => fun v => serialize_int8 v 10
  | TInt Short => fun v => serialize_int16 v 10
  | TInt Int => fun v => serialize_int32 v 10
  | TInt Long => fun v => serialize_long v 10
  | TInt UnsignedChar => fun v => serialize_uint8 v 10
  | TInt UnsignedShort => fun v => serialize_uint16 v 10
  | TInt UnsignedInt => fun v => serialize_uint32 v 10
  | TInt UnsignedLong => fun v => serialize_ulong v 10
  | TBool => serialize_bool
  | TFloat => serialize_float
  | TDouble => serialize_double
  end.

(** *** [internal::convert<T>]

    Modelled from the spec: the readers below are the parsing half of
    the [convert<T>] specializations, which [settings.h] only declares:
    decimal digits, an optional leading minus sign, and for the floating
    types an optional point followed by digits. *)

Definition is_digit (c : ascii) : bool :=
  let n := Z.of_N (N_of_ascii c) in (48 <=? n) && (n <=? 57).

Definition digit_value (c : ascii) : Z := Z.of_N (N_of_ascii c) - 48.

Fixpoint parse_digits (s : string) (acc : Z) : option Z :=
  match s with
  | EmptyString => Some acc
  | String c s' =>
      if is_digit c then parse_digits s' (10 * acc + digit_value c) else None
  end.

Definition parse_unsigned (s : string) : option Z :=
  match s with
  | EmptyString => None
  | _ => parse_digits s 0
  end.

Definition parse_integer (s : string) : option Z :=
  match s with
  | String c s' =>
      if Ascii.eqb c "-" then Z.opp <$> parse_unsigned s'
      else parse_unsigned s
  | EmptyString => None
  end.

Fixpoint parse_fraction (s : string) (acc : Z) (scale : positive) : option Q :=
  match s with
  | EmptyString => Some (acc # scale)
  | String c s' =>
      if is_digit c
      then parse_fraction s' (10 * acc + digit_value c) (10 * scale)
      else None
  end.

Fixpoint parse_decimal (s : string) (acc : Z) : option Q :=
  match s with
  | EmptyString => Some (acc # 1)
  | String c s' =>
      if is_digit c then parse_decimal s' (10 * acc + digit_value c)
      else if Ascii.eqb c "." then parse_fraction s' acc 1
      else None
  end.

Definition parse_unsigned_decimal (s : string) : option Q :=
  match s with
  | EmptyString => None
  | _ => parse_decimal s 0
  end.

(** Modelled from the spec: the float of the format with [prec] bits
    of mantissa and the exponent bound [emax] that is nearest to the
    decimal [q] (ties to even), with the sign [sign]: the division of
    the numerator by the denominator, rounded once. *)
Definition round_decimal (prec emax : Z) (sign : bool) (q : Q) : spec_float :=
  match Qnum q with
  | Zpos n =>
      let '(mz, ez, lz) :=
        SFdiv_core_binary prec emax (Zpos n) 0 (Zpos (Qden q)) 0 in
      binary_round_aux prec emax sign mz ez lz
  | _ => S754_zero sign
  end.

(** Modelled from the spec: a decimal text read as a binary float. *)
Definition parse_floating (prec emax : Z) (s : string) : option spec_float :=
  match s with
  | String c s' =>
      if Ascii.eqb c "-"
      then round_decimal prec emax true <$> parse_unsigned_decimal s'
      else round_decimal prec emax false <$> parse_unsigned_decimal s
  | EmptyString => None
  end.

(** The record that [binary_round_aux] keeps of the quotient of [num]
    by [den] while it shifts the mantissa: the integer part, the first
    bit after the point, and whether a later bit is set. *)
Definition shr_of (num den : Z) : shr_record :=
  {| shr_m := num / den;
     shr_r := Z.odd (2 * num / den);
     shr_s := negb (2 * num mod den =? 0) |}.

(** Modelled from the spec: the [convert<T>] specializations are only
    declared in [settings.h].  [parse T text] is the value of a
    well-formed text; [None] stands for malformed or empty text. *)
Definition parse (T : SettingType) : string -> option (value_of T) :=
  match T with
  | TInt t => fun s =>
      v ← parse_integer s;
      if (min_value t <=? v) && (v <=? max_value t) then Some v else None
  | TBool => fun s =>
      if String.eqb s "true" then Some true
      else if String.eqb s "false" then Some false
      else None
  | TFloat => parse_floating 24 128
  | TDouble => parse_floating 53 1024
  end.

(** Modelled from the spec: malformed or empty text yields the type's
    zero/false value, never a failure signal. *)
Definition convert (T : SettingType) (value : string) : value_of T :=
  default (zero T) (parse T value).

(** *** The key-value store and the typed accessor *)

(** Modelled from the spec: [espurna::settings::Key] comes from
    [settings_helpers.h], which is not part of the sources at hand: a
    key is either a plain name or a name and a numeric ordinal. *)
Inductive Key : Type :=
| Key_plain (name : string)
| Key_indexed (name : string) (index : Z).

Definition Key_value (key : Key) : string :=
  match key with
  | Key_plain name => name
  | Key_indexed name index => name +:+ utoa 10 index
  end.

(** Modelled from the spec: [espurna::settings::get], only declared in
    [settings.h]; the store maps text keys to text values, and the
    result is the stored text when an entry exists. *)
Definition get (kvs : gmap string string) (key : string) : option string :=
  kvs !! key.

(** The store after a write that it accepted: the entry is created or
    overwritten. *)
Definition set (key value : string) (kvs : gmap string string)
  : gmap string string :=
  <[key := value]> kvs.

(** Modelled from the spec: [espurna::settings::set], only declared in
    [settings.h]: the result and the store after it.  Whether the store
    has room for the write is decided by the storage ([accepts]); a
    rejected write returns [false] and changes nothing. *)
Definition set_result (accepts : gmap string string -> string -> string -> bool)
    (key value : string) (kvs : gmap string string)
  : bool * gmap string string :=
  if accepts kvs key value then (true, set key value kvs) else (false, kvs).

(** [getSetting<T>(key, defaultValue)]. *)
Definition getSetting (T : SettingType) (kvs : gmap string string)
    (key : Key) (defaultValue : value_of T) : value_of T :=
  match get kvs (Key_value key) with
  | Some ref => convert T ref
  | None => defaultValue
  end.

(** *** Enumeration-backed [convert] *)

(** Modelled from the spec: [Enumeration<T>] and its member [Numeric]
    come from [settings_helpers.h], which is not part of the sources at
    hand.  [Numeric] holds whether the text was taken as a number, and
    the number. *)
Record Numeric : Type := { _set : bool; _value : Z }.

(** Modelled from the spec: [Numeric::check] is not part of the sources
    at hand.  The number is taken when the text parses as the table's
    underlying numeric type. *)
Definition Numeric_check (Underlying : IntType) (value : string)
    (conv : string -> Z) : Numeric :=
  match parse (TInt Underlying) value with
  | Some _ => {| _set := true; _value := conv value |}
  | None => {| _set := false; _value := 0 |}
  end.

Section options.

Context {T : Type}.

(** One element of an option table ([Enumeration<T>]): its value, its
    numeric code and its keyword.  Comparing an element with a text
    ([*it == value]) is the exact comparison of the keyword with the
    text. *)
Record Enumeration : Type := {
  enum_value : T;
  enum_numeric : Z;
  enum_string : string
}.

(** [static_cast<T>] of a value of the underlying type. *)
Context (static_cast_T : Z -> T).

(** The underlying type and [Numeric::check]. *)
Context (Underlying : IntType).
Context (check : string -> (string -> Z) -> Numeric).

(** The loop over the table. *)
Fixpoint convert_options_loop (numeric : Numeric)
    (options : list Enumeration) (value : string) : option T :=
  match options with
  | [] => None
  | it :: rest =>
      if _set numeric && (enum_numeric it =? _value numeric)
      then Some (static_cast_T (_value numeric))
      else if negb (_set numeric) && String.eqb (enum_string it) value
      then Some (enum_value it)
      else convert_options_loop numeric rest value
  end.

(** [convert(options, value, defaultValue)]. *)
Definition convert_options (options : list Enumeration) (value : string)
    (defaultValue : T) : T :=
  if negb (String.length value =? 0)%nat
  then
    let numeric := check value (convert (TInt Underlying)) in
    default defaultValue (convert_options_loop numeric options value)
  else defaultValue.

(** The resolution order in the words of the specification: the
    numeric code first; otherwise the keyword; otherwise the caller
    default. *)
Definition resolve_as_specified (options : list Enumeration)
    (value : string) (defaultValue : T) : T :=
  let numeric := check value (convert (TInt Underlying)) in
  match
    (if _set numeric
     then List.find (fun it => enum_numeric it =? _value numeric) options
     else None)
  with
  | Some it => enum_value it
  | None =>
      match List.find (fun it => String.eqb (enum_string it) value) options with
      | Some it => enum_value it
      | None => defaultValue
      end
  end.

End options.

Arguments Enumeration : clear implicits.

(** An enumeration with two enumerators, [Off = 0] and [On = 1], as in
    the example of the specification. *)
Inductive Mode : Type := Off | On.

Definition Mode_cast (n : Z) : Mode := if n =? 1 then On else Off.

Definition Mode_option (value : Mode) (keyword : string) : Enumeration Mode :=
  {| enum_value := value;
     enum_numeric := match value with Off => 0 | On => 1 end;
     enum_string := keyword |}.

(** A table in which the keyword of [On] is the text "7". *)
Definition digits_table : list (Enumeration Mode) :=
  [Mode_option Off "off"; Mode_option On "7"].

(** *** Enumeration-backed [serialize] *)

Section options_serialize.

Context {T : Type} `{EqDecision T}.

(** [serialize(options, value)]: the keyword of the first option whose
    value is [value]; the empty [String] when there is none. *)
Fixpoint serialize_options (options : list (Enumeration T)) (value : T)
  : string :=
  match options with
  | [] => EmptyString
  | it :: rest =>
      if decide (enum_value it = value) then enum_string it
      else serialize_options rest value
  end.

End options_serialize.

#[export] Instance Mode_eq_dec : EqDecision Mode.
Proof. solve_decision. Defined.

(** The option table of the specification's example. *)
Definition mode_table : list (Enumeration Mode) :=
  [Mode_option Off "off"; Mode_option On "on"].

(** *** [setSetting] *)

(** [setSetting<T>(key, value)] for an Arduino [String]: the store-level
    [set] under the text of the key.  The store of this model accepts
    every write. *)
Definition setSetting_String (kvs : gmap string string) (key : Key)
    (value : string) : gmap string string :=
  set (Key_value key) value kvs.

(** Modelled from the spec: Arduino's [String(value)] of an integer is
    its decimal text. *)
Definition String_of_integer (t : IntType) (value : Z) : string :=
  if is_signed t then itoa 10 value else utoa 10 value.

(** [setSetting<T>(key, value)] for an integer type [T]:
    [setSetting(key, String(value))]. *)
Definition setSetting (t : IntType) (kvs : gmap string string) (key : Key)
    (value : Z) : gmap string string :=
  setSetting_String kvs key (String_of_integer t value).

(** *** Migration *)

(** A [MigrateVersionCallback] is a pointer to a function from [int]
    to [void]: it acts on the store. *)
Definition MigrateVersionCallback : Type :=
  Z -> gmap string string -> gmap string string.

(** The store, the registered callbacks in registration order, and a
    record of the calls made so far: which callback (by its position in
    the registration order) was called with which version. *)
Record State : Type := {
  kvs : gmap string string;
  migrations : list MigrateVersionCallback;
  calls : list (nat * Z)
}.

Section migration.

(** The key of the persisted version and the compiled-in target come
    from the build configuration. *)
Context (version_key : Key) (CFG_VERSION : Z).

(** Whether the store has room for a write. *)
Context (accepts : gmap string string -> string -> string -> bool).

(** Modelled from the spec: [migrateVersion(MigrateVersionCallback)],
    only declared in [settings.h]: registers a callback. *)
Definition migrateVersion_register (callback : MigrateVersionCallback)
    (st : State) : State :=
  {| kvs := kvs st;
     migrations := migrations st ++ [callback];
     calls := calls st |}.

(** Modelled from the spec: [migrateVersion()], only declared in
    [settings.h]: the persisted version, 0 when absent. *)
Definition migrateVersion (st : State) : Z :=
  getSetting (TInt Int) (kvs st) version_key 0.

(** Modelled from the spec: one call of a callback, recorded. *)
Definition invoke (version : Z) (index : nat)
    (callback : MigrateVersionCallback) (st : State) : State :=
  {| kvs := callback version (kvs st);
     migrations := migrations st;
     calls := calls st ++ [(index, version)] |}.

(** Modelled from the spec: the callbacks are called in registration
    order, each with the same version. *)
Fixpoint invoke_all (version : Z) (index : nat)
    (callbacks : list MigrateVersionCallback) (st : State) : State :=
  match callbacks with
  | [] => st
  | callback :: rest =>
      invoke_all version (S index) rest (invoke version index callback st)
  end.

(** Modelled from the spec: [migrate()], only declared in
    [settings.h]: when the stored version is behind the target, all
    registered callbacks are invoked in registration order with the
    previously stored version, and only then the new version is
    written with [set]; [migrate] returns nothing, so the result of the
    write is dropped. *)
Definition migrate (st : State) : State :=
  let version := migrateVersion st in
  if version <? CFG_VERSION then
    let st' := invoke_all version 0 (migrations st) st in
    {| kvs := snd (set_result accepts (Key_value version_key)
                     (serialize (TInt Int) CFG_VERSION) (kvs st'));
       migrations := migrations st';
       calls := calls st' |}
  else st.

End migration.

(** A store at version 12 with two registered callbacks: the first
    renames the key "relayMode" to "relayBoot", the second removes the
    key "debug". *)
Definition example_state : State :=
  {| kvs := {[ "cfg" := "12"; "relayMode" := "1"; "debug" := "0" ]};
     migrations :=
       [ (fun _ store =>
            match store !! "relayMode" with
            | Some text => <["relayBoot" := text]> (delete "relayMode" store)
            | None => store
            end);
         (fun _ store => delete "debug" store) ];
     calls := [] |}.

(** A store with room for every write. *)
Definition roomy : gmap string string -> string -> string -> bool :=
  fun _ _ _ => true.

(** A full store: an entry can be overwritten, no entry can be added. *)
Definition full : gmap string string -> string -> string -> bool :=
  fun kvs key _ => bool_decide (is_Some (kvs !! key)).

(** A store without a version entry and with one registered callback,
    which flips the entry "relay" between "0" and "1". *)
Definition flip_state : State :=
  {| kvs := {[ "relay" := "0" ]};
     migrations :=
       [ (fun _ store =>
            match store !! "relay" with
            | Some text =>
                <["relay" := if String.eqb text "0" then "1" else "0"]> store
            | None => store
            end) ];
     calls := [] |}.

End settings.

(** * Properties *)

(** ** Fixed-width integers *)

Lemma wrap32_small z : is_u32 z -> wrap32 z = z.
Proof. unfold is_u32, wrap32, UINT32_MAX. intros Hz. apply Z.mod_small. lia. Qed.

Lemma wrap32_is_u32 z : is_u32 (wrap32 z).
Proof.
  unfold is_u32, wrap32, UINT32_MAX.
  pose proof (Z.mod_pos_bound z (2 ^ 32) ltac:(lia)). lia.
Qed.

Lemma wrap32_add_l a b : wrap32 (wrap32 a + b) = wrap32 (a + b).
Proof. unfold wrap32. apply Zplus_mod_idemp_l. Qed.

(** ** The energy accumulator *)

Module EnergyFacts.

Import Ratio sensor.

Lemma KwhMultiplier_eq : KwhMultiplier = 3600000.
Proof. reflexivity. Qed.

Lemma KwhLimit_eq : KwhLimit = 1193.
Proof. reflexivity. Qed.

(** The loop carries every whole multiple of [KwhMultiplier]. *)
Lemma normalize_spec (kwh ws : Z) :
  is_u32 kwh -> 0 <= ws ->
  normalize kwh ws =
    {| _kwh := wrap32 (kwh + ws / KwhMultiplier); _ws := ws mod KwhMultiplier |}.
Proof.
  funelim (normalize kwh ws); intros Hkwh Hws;
    clear Heq; try clear Heqcall; rewrite KwhMultiplier_eq in *.
  - rewrite Z.div_small, Z.mod_small, Z.add_0_r by lia.
    rewrite wrap32_small by assumption. reflexivity.
  - rewrite H by (auto using wrap32_is_u32; lia).
    replace (ws - 3600000) with (ws + (-1) * 3600000) by lia.
    rewrite Z.div_add, Z_mod_plus_full by lia.
    rewrite wrap32_add_l. f_equal. f_equal. lia.
Qed.

Lemma accumulate_spec (e : Energy) (delta : Z) :
  is_u32 (_kwh e) ->
  accumulate e delta =
    {| _kwh := wrap32 (_kwh e + wrap32 (_ws e + delta) / KwhMultiplier);
       _ws := wrap32 (_ws e + delta) mod KwhMultiplier |}.
Proof.
  intros Hkwh. unfold accumulate. apply normalize_spec; [assumption|].
  apply wrap32_is_u32.
Qed.

(** Without wrap-around of either counter, the counters are the
    quotient and the remainder of the exact sum. *)
Lemma accumulate_exact (e : Energy) (delta : Z) :
  is_u32 (_kwh e) -> is_u32 (_ws e) -> is_u32 delta ->
  _ws e + delta <= UINT32_MAX ->
  _kwh e + (_ws e + delta) / KwhMultiplier <= UINT32_MAX ->
  accumulate e delta =
    {| _kwh := _kwh e + (_ws e + delta) / KwhMultiplier;
       _ws := (_ws e + delta) mod KwhMultiplier |}.
Proof.
  intros Hkwh Hws Hd Hsum Hcarry. rewrite accumulate_spec by assumption.
  unfold is_u32 in *.
  rewrite (wrap32_small (_ws e + delta)) by (unfold is_u32; lia).
  rewrite wrap32_small; [reflexivity|].
  assert (0 <= (_ws e + delta) / KwhMultiplier)
    by (apply Z.div_pos; rewrite ?KwhMultiplier_eq; lia).
  unfold is_u32; lia.
Qed.

(** C1: accumulating watt-seconds carries whole multiples of 3_600_000
    into the kWh part.  For every starting state the result is the
    normal form of the (32-bit) sum, so that afterwards
    [wsPart < 3_600_000]; when neither counter wraps around the total
    is kept.  From a zero Energy, [WattSeconds(3_600_000)] once gives
    kwhPart 1 and wsPart 0, and [WattSeconds(3_600_001)] twice gives
    kwhPart 2 and wsPart 2. *)
Theorem accumulate_normalizes (e : Energy) (delta : Z) :
  is_u32 (_kwh e) -> is_u32 (_ws e) -> is_u32 delta ->
  KwhMultiplier = 3600000
  /\ accumulate e delta =
       {| _kwh := wrap32 (_kwh e + wrap32 (_ws e + delta) / KwhMultiplier);
          _ws := wrap32 (_ws e + delta) mod KwhMultiplier |}
  /\ 0 <= _ws (accumulate e delta) < KwhMultiplier
  /\ is_u32 (_kwh (accumulate e delta))
  /\ (_ws e + delta <= UINT32_MAX ->
      _kwh e + (_ws e + delta) / KwhMultiplier <= UINT32_MAX ->
      _kwh (accumulate e delta) * KwhMultiplier + _ws (accumulate e delta)
      = _kwh e * KwhMultiplier + _ws e + delta)
  /\ accumulate Energy_default 3600000 = {| _kwh := 1; _ws := 0 |}
  /\ accumulate (accumulate Energy_default 3600001) 3600001
     = {| _kwh := 2; _ws := 2 |}.
Proof.
  intros Hkwh Hws Hd.
  split; [reflexivity|].
  split; [apply accumulate_spec; assumption|].
  split.
  { rewrite accumulate_spec by assumption. simpl.
    apply Z.mod_pos_bound. rewrite KwhMultiplier_eq. lia. }
  split.
  { rewrite accumulate_spec by assumption. simpl. apply wrap32_is_u32. }
  split.
  { intros Hsum Hcarry. rewrite accumulate_exact by assumption. simpl.
    pose proof (Z.div_mod (_ws e + delta) KwhMultiplier) as Hdm.
    rewrite KwhMultiplier_eq in *. lia. }
  split; vm_compute; reflexivity.
Qed.

Lemma accumulate_normalizes_witness :
  _kwh (accumulate {| _kwh := 7; _ws := 3599999 |} 7200002) = 10
  /\ _ws (accumulate {| _kwh := 7; _ws := 3599999 |} 7200002) = 1.
Proof.
  destruct (accumulate_normalizes {| _kwh := 7; _ws := 3599999 |} 7200002)
    as (_ & Heq & _); [unfold is_u32, UINT32_MAX; simpl; lia ..|].
  rewrite Heq. vm_compute. split; reflexivity.
Defined.

(** Accumulating zero watt-seconds after [reset] leaves both counters
    at zero: [bool(energy)] is not true then. *)
Lemma accumulate_zero_after_reset_is_false :
  Energy_bool (accumulate (reset {| _kwh := 5; _ws := 17 |}) 0) <> true.
Proof. vm_compute. discriminate. Qed.

(** C8 (amended): after [reset], [bool(energy)] is false; [bool(energy)]
    holds exactly when kwhPart or wsPart is non-zero; and accumulating
    a non-zero delta makes it true, as long as neither 32-bit counter
    wraps around (in particular for the accumulate that follows a
    [reset]). *)
Theorem bool_after_reset_and_accumulate (e : Energy) (delta : Z) :
  is_u32 (_kwh e) -> is_u32 (_ws e) -> is_u32 delta ->
  0 < delta ->
  Energy_bool (reset e) = false
  /\ (Energy_bool e = true <-> _kwh e <> 0 \/ _ws e <> 0)
  /\ Energy_bool (accumulate (reset e) delta) = true
  /\ (_ws e + delta <= UINT32_MAX ->
      _kwh e + (_ws e + delta) / KwhMultiplier <= UINT32_MAX ->
      Energy_bool (accumulate e delta) = true).
Proof.
  intros Hkwh Hws Hd Hpos.
  assert (Hgen : forall e', is_u32 (_kwh e') -> is_u32 (_ws e') ->
            _ws e' + delta <= UINT32_MAX ->
            _kwh e' + (_ws e' + delta) / KwhMultiplier <= UINT32_MAX ->
            Energy_bool (accumulate e' delta) = true).
  { intros e' Hk' Hw' Hsum Hcarry.
    rewrite accumulate_exact by assumption.
    unfold Energy_bool; simpl. unfold is_u32 in *.
    pose proof (Z.div_mod (_ws e' + delta) KwhMultiplier) as Hdm.
    assert (0 <= (_ws e' + delta) / KwhMultiplier)
      by (apply Z.div_pos; rewrite ?KwhMultiplier_eq; lia).
    rewrite KwhMultiplier_eq in *.
    apply orb_true_iff.
    destruct (Z.eqb_spec (_kwh e' + (_ws e' + delta) / 3600000) 0);
      destruct (Z.eqb_spec ((_ws e' + delta) mod 3600000) 0);
      simpl; auto. lia. }
  split; [reflexivity|].
  split.
  { unfold Energy_bool. rewrite orb_true_iff, !negb_true_iff, !Z.eqb_neq.
    reflexivity. }
  split.
  { apply Hgen; simpl; unfold is_u32, UINT32_MAX in *; try lia.
    assert ((0 + delta) / KwhMultiplier <= 0 + delta)
      by (apply Z.div_le_upper_bound; rewrite KwhMultiplier_eq; lia).
    lia. }
  apply Hgen; assumption.
Qed.

Lemma bool_after_reset_and_accumulate_witness :
  Energy_bool (accumulate (reset {| _kwh := 5; _ws := 17 |}) 1) = true.
Proof.
  destruct (bool_after_reset_and_accumulate {| _kwh := 5; _ws := 17 |} 1)
    as (_ & _ & Htrue & _); [unfold is_u32, UINT32_MAX; simpl; lia ..|].
  exact Htrue.
Defined.

End EnergyFacts.

(** ** Exact results of binary64 multiplication and division

    When the exact product or quotient of two finite doubles is a
    double, the operation returns it: nothing is rounded. *)

Module FloatFacts.

Lemma digits2_pos_bounds (m : positive) :
  2 ^ (Zpos (digits2_pos m) - 1) <= Zpos m < 2 ^ Zpos (digits2_pos m).
Proof.
  induction m as [m IH|m IH|]; simpl digits2_pos.
  - rewrite Pos2Z.inj_succ.
    replace (Z.succ (Zpos (digits2_pos m)) - 1) with (Z.succ (Zpos (digits2_pos m) - 1)) by lia.
    rewrite !Z.pow_succ_r by lia. lia.
  - rewrite Pos2Z.inj_succ.
    replace (Z.succ (Zpos (digits2_pos m)) - 1) with (Z.succ (Zpos (digits2_pos m) - 1)) by lia.
    rewrite !Z.pow_succ_r by lia. lia.
  - simpl. lia.
Qed.

(** The number of digits is fixed by the two bounds. *)
Lemma digits2_pos_unique (m : positive) (d : Z) :
  2 ^ (d - 1) <= Zpos m < 2 ^ d -> Zpos (digits2_pos m) = d.
Proof.
  intros [Hlo Hhi]. pose proof (digits2_pos_bounds m) as [Hlo' Hhi'].
  assert (0 < d).
  { destruct (Z.lt_ge_cases 0 d); [assumption|].
    assert (2 ^ d <= 2 ^ 0) by (destruct (Z.eq_dec d 0) as [->|]; [lia|rewrite Z.pow_neg_r by lia; simpl; lia]).
    simpl in *. lia. }
  assert (d - 1 < Zpos (digits2_pos m)).
  { apply (Z.pow_lt_mono_r_iff 2); lia. }
  assert (Zpos (digits2_pos m) - 1 < d).
  { apply (Z.pow_lt_mono_r_iff 2); lia. }
  lia.
Qed.

Lemma iter_xO_spec (m p : positive) :
  Zpos (Pos.iter xO m p) = Zpos m * 2 ^ Zpos p.
Proof.
  change (Pos.iter xO m p) with (shift_pos p m).
  rewrite shift_pos_correct, Z.pow_pos_fold. lia.
Qed.

Lemma iter_shr_1_exact (p m : positive) :
  SpecFloat.iter_pos shr_1 p {| shr_m := Zpos (Pos.iter xO m p); shr_r := false; shr_s := false |}
  = {| shr_m := Zpos m; shr_r := false; shr_s := false |}.
Proof.
  revert m. induction p as [p IH|p IH|]; intros m; simpl.
  - rewrite IH, IH. reflexivity.
  - rewrite IH, IH. reflexivity.
  - reflexivity.
Qed.

Lemma bounded_canonical (m : positive) (e : Z) :
  bounded prec emax m e = true ->
  fexp prec emax (Zpos (digits2_pos m) + e) = e /\ e <= emax - prec.
Proof.
  unfold bounded, canonical_mantissa. intros H.
  apply andb_true_iff in H as [H1 H2].
  apply Z.eqb_eq in H1. apply Z.leb_le in H2. split; assumption.
Qed.

(** A mantissa that carries [k] more bits than the canonical form of its
    value, all of them zero, is rounded to the canonical form. *)
Lemma binary_round_aux_exact (s : bool) (m : positive) (e k : Z) (M : Z) :
  bounded prec emax m e = true -> 0 <= k -> M = Zpos m * 2 ^ k ->
  binary_round_aux prec emax s M (e - k) loc_Exact = S754_finite s m e.
Proof.
  intros Hb Hk ->. destruct (bounded_canonical m e Hb) as [Hcan Hmax].
  assert (Hshift : shr_fexp prec emax (Zpos m * 2 ^ k) (e - k) loc_Exact
                   = ({| shr_m := Zpos m; shr_r := false; shr_s := false |}, e)).
  { unfold shr_fexp. destruct k as [|p|p]; [| |lia].
    - rewrite Z.pow_0_r, Z.mul_1_r, Z.sub_0_r. simpl Zdigits2.
      rewrite Hcan, Z.sub_diag. reflexivity.
    - rewrite <- iter_xO_spec. simpl Zdigits2.
      assert (Hd : Zpos (digits2_pos (Pos.iter xO m p)) = Zpos (digits2_pos m) + Zpos p).
      { apply digits2_pos_unique. rewrite iter_xO_spec.
        pose proof (digits2_pos_bounds m) as [Hlo Hhi].
        replace (Zpos (digits2_pos m) + Zpos p - 1) with (Zpos (digits2_pos m) - 1 + Zpos p) by lia.
        rewrite !Z.pow_add_r by lia.
        assert (0 < 2 ^ Zpos p) by (apply Z.pow_pos_nonneg; lia).
        split; nia. }
      rewrite Hd.
      replace (Zpos (digits2_pos m) + Zpos p + (e - Zpos p)) with (Zpos (digits2_pos m) + e) by lia.
      rewrite Hcan.
      replace (e - (e - Zpos p)) with (Zpos p) by lia.
      unfold shr, shr_record_of_loc. rewrite iter_shr_1_exact. f_equal. lia. }
  unfold binary_round_aux. rewrite Hshift. simpl shr_m. simpl loc_of_shr_record.
  simpl round_nearest_even.
  assert (Hshift0 : shr_fexp prec emax (Zpos m) e loc_Exact
                   = ({| shr_m := Zpos m; shr_r := false; shr_s := false |}, e)).
  { unfold shr_fexp. simpl Zdigits2. rewrite Hcan, Z.sub_diag. reflexivity. }
  rewrite Hshift0. simpl shr_m.
  apply Z.leb_le in Hmax. rewrite Hmax. reflexivity.
Qed.

Lemma fexp_monotone (a b : Z) : a <= b -> fexp prec emax a <= fexp prec emax b.
Proof. unfold fexp. lia. Qed.

Lemma SFmul_exact (sx sy : bool) (mx my mz : positive) (ex ey ez k : Z) :
  bounded prec emax mz ez = true -> 0 <= k ->
  Zpos mx * Zpos my = Zpos mz * 2 ^ k -> ex + ey = ez - k ->
  SFmul prec emax (S754_finite sx mx ex) (S754_finite sy my ey)
  = S754_finite (xorb sx sy) mz ez.
Proof.
  intros Hb Hk Hm He. unfold SFmul. rewrite He.
  apply binary_round_aux_exact; assumption.
Qed.

Lemma SFdiv_exact (sx sy : bool) (mx my mz : positive) (ex ey ez a b : Z) :
  bounded prec emax mz ez = true -> 0 <= a -> 0 <= b ->
  Zpos mx * 2 ^ a = Zpos mz * Zpos my * 2 ^ b -> ex - a = ez + ey - b ->
  SFdiv prec emax (S754_finite sx mx ex) (S754_finite sy my ey)
  = S754_finite (xorb sx sy) mz ez.
Proof.
  intros Hb Ha Hbb Hm He.
  destruct (bounded_canonical mz ez Hb) as [Hcan _].
  pose proof (digits2_pos_bounds mx) as [Hx0 Hx1].
  pose proof (digits2_pos_bounds my) as [Hy0 Hy1].
  pose proof (digits2_pos_bounds mz) as [Hz0 Hz1].
  set (dx := Zpos (digits2_pos mx)) in *.
  set (dy := Zpos (digits2_pos my)) in *.
  set (dz := Zpos (digits2_pos mz)) in *.
  assert (Hpa : 0 < 2 ^ a) by (apply Z.pow_pos_nonneg; lia).
  assert (Hpb : 0 < 2 ^ b) by (apply Z.pow_pos_nonneg; lia).
  assert (Hdig : dx + ex - (dy + ey) <= dz + ez).
  { assert (Hlt : 2 ^ (dx - 1 + a) < 2 ^ (dz + dy + b)).
    { rewrite !Z.pow_add_r by (unfold dx, dy, dz; lia).
      assert (Zpos mz * Zpos my < 2 ^ dz * 2 ^ dy) by nia. nia. }
    apply Z.pow_lt_mono_r_iff in Hlt; unfold dx, dy, dz in *; lia. }
  unfold SFdiv, SFdiv_core_binary. simpl Zdigits2. fold dx dy.
  set (e' := Z.min (fexp prec emax (dx + ex - (dy + ey))) (ex - ey)).
  assert (He' : e' <= ez).
  { pose proof (fexp_monotone _ _ Hdig). unfold e'. lia. }
  assert (Hs : 0 <= ex - ey - e') by (unfold e'; lia).
  set (k := ez - e').
  assert (Hpk : 0 < 2 ^ k) by (apply Z.pow_pos_nonneg; unfold k; lia).
  assert (Hm' : match ex - ey - e' with
                | Zpos _ => Z.shiftl (Zpos mx) (ex - ey - e')
                | 0 => Zpos mx
                | Zneg _ => 0
                end = Zpos mz * 2 ^ k * Zpos my).
  { assert (Hval : Zpos mx * 2 ^ (ex - ey - e') = Zpos mz * 2 ^ k * Zpos my).
    { assert (Hexp : ex - ey - e' + b = k + a) by (unfold k; lia).
      assert (H2 : 2 ^ (ex - ey - e') * 2 ^ b = 2 ^ k * 2 ^ a).
      { rewrite <- !Z.pow_add_r by (unfold k; lia). f_equal. exact Hexp. }
      apply (Z.mul_cancel_r _ _ (2 ^ b)); [lia|]. nia. }
    destruct (ex - ey - e') as [|p|p] eqn:Hse; [| |lia].
    - rewrite Z.pow_0_r, Z.mul_1_r in Hval. exact Hval.
    - rewrite Z.shiftl_mul_pow2 by lia. exact Hval. }
  rewrite Hm'.
  assert (Heucl : Z.div_eucl (Zpos mz * 2 ^ k * Zpos my) (Zpos my)
                  = (Zpos mz * 2 ^ k, 0)).
  { rewrite (surjective_pairing (Z.div_eucl _ _)).
    change (fst (Z.div_eucl ?x ?y)) with (x / y).
    change (snd (Z.div_eucl ?x ?y)) with (x mod y).
    rewrite Z.div_mul, Z.mod_mul by lia. reflexivity. }
  rewrite Heucl.
  assert (Hloc : new_location (Zpos my) 0 = loc_Exact).
  { unfold new_location, new_location_even, new_location_odd.
    destruct (Z.even (Zpos my)); reflexivity. }
  rewrite Hloc.
  replace e' with (ez - k) by (unfold k; lia).
  apply binary_round_aux_exact; try assumption; unfold k; lia.
Qed.

(** *** The primitive operations *)

Import Ratio sensor.

Lemma Prim2SF_1 : Prim2SF 1%float = SF_1.
Proof. vm_compute. reflexivity. Qed.

Lemma Prim2SF_1000 : Prim2SF 1000%float = SF_1000.
Proof. vm_compute. reflexivity. Qed.

(** A finite double has a canonical mantissa of at most 53 bits and an
    exponent of at least -1074. *)
Lemma finite_valid (x : float) (s : bool) (m : positive) (e : Z) :
  Prim2SF x = S754_finite s m e ->
  bounded prec emax m e = true /\ -1074 <= e /\ Zpos m < 2 ^ 53.
Proof.
  intros Hx. pose proof (Prim2SF_valid x) as Hvalid.
  rewrite Hx in Hvalid. simpl in Hvalid.
  split; [exact Hvalid|].
  destruct (bounded_canonical m e Hvalid) as [Hcan _].
  pose proof (digits2_pos_bounds m) as [_ Hhi].
  unfold fexp, SpecFloat.emin, prec, emax in Hcan.
  split; [lia|].
  assert (Zpos (digits2_pos m) <= 53) by lia.
  assert (2 ^ Zpos (digits2_pos m) <= 2 ^ 53) by (apply Z.pow_le_mono_r; lia).
  lia.
Qed.

(** Multiplying and dividing by 1 change no double. *)
Lemma mul_1_r (x : float) : (x * 1)%float = x.
Proof.
  apply Prim2SF_inj. rewrite mul_spec, Prim2SF_1.
  destruct (Prim2SF x) as [[]|[]| |s m e] eqn:Hx; try reflexivity.
  destruct (finite_valid x s m e Hx) as (Hb & _ & _).
  unfold SF64mul, SF_1.
  rewrite (SFmul_exact s false m 4503599627370496 m e (-52) e 52);
    try assumption; try lia.
  rewrite xorb_false_r. reflexivity.
Qed.

Lemma div_1_r (x : float) : (x / 1)%float = x.
Proof.
  apply Prim2SF_inj. rewrite div_spec, Prim2SF_1.
  destruct (Prim2SF x) as [[]|[]| |s m e] eqn:Hx; try reflexivity.
  destruct (finite_valid x s m e Hx) as (Hb & _ & _).
  unfold SF64div, SF_1.
  rewrite (SFdiv_exact s false m 4503599627370496 m e (-52) e 52 0);
    try assumption; try lia.
  rewrite xorb_false_r. reflexivity.
Qed.

(** Multiplying and dividing a zero by 1000 give the zero back. *)
Lemma zero_1000 (x : float) (s : bool) :
  Prim2SF x = S754_zero s -> (x * 1000)%float = x /\ (x / 1000)%float = x.
Proof.
  intros Hx. split; apply Prim2SF_inj.
  - rewrite mul_spec, Prim2SF_1000, Hx. destruct s; reflexivity.
  - rewrite div_spec, Prim2SF_1000, Hx. destruct s; reflexivity.
Qed.

(** When [x] is exactly a thousand times [y], [x / 1000] is [y] and
    [y * 1000] is [x]. *)
Lemma thousand_exact (x y : float) (s : bool) (mx my : positive) (ex ey : Z) :
  Prim2SF x = S754_finite s mx ex -> Prim2SF y = S754_finite s my ey ->
  Zpos mx * 2 ^ (ex + 1074) = Zpos my * 2 ^ (ey + 1074) * 1000 ->
  (x / 1000)%float = y /\ (y * 1000)%float = x.
Proof.
  intros Hx Hy Hvalue.
  destruct (finite_valid x s mx ex Hx) as (Hbx & Hex & Hmx).
  destruct (finite_valid y s my ey Hy) as (Hby & Hey & Hmy).
  assert (Hpx : 0 < 2 ^ (ex + 1074)) by (apply Z.pow_pos_nonneg; lia).
  assert (Hpy : 0 < 2 ^ (ey + 1074)) by (apply Z.pow_pos_nonneg; lia).
  split; apply Prim2SF_inj.
  - rewrite div_spec, Prim2SF_1000, Hx, Hy. unfold SF64div, SF_1000.
    rewrite (SFdiv_exact s false mx 8796093022208000 my ex (-43) ey
               (ex + 1117) (ey + 1074)); try assumption; try lia.
    + rewrite xorb_false_r. reflexivity.
    + replace (ex + 1117) with (ex + 1074 + 43) by lia.
      rewrite Z.pow_add_r by lia.
      change (2 ^ 43) with 8796093022208.
      change (Zpos 8796093022208000) with (1000 * 8796093022208). nia.
  - rewrite mul_spec, Prim2SF_1000, Hx, Hy. unfold SF64mul, SF_1000.
    assert (Hk : 0 <= ex - ey + 43).
    { destruct (Z.lt_ge_cases (ex - ey + 43) 0) as [Hneg|]; [exfalso|assumption].
      assert (Hsplit : 2 ^ (ey + 1074) = 2 ^ (ex + 1074) * 2 ^ (ey - ex)).
      { rewrite <- Z.pow_add_r by lia. f_equal. lia. }
      assert (2 ^ 44 <= 2 ^ (ey - ex)) by (apply Z.pow_le_mono_r; lia).
      change (2 ^ 44) with 17592186044416 in *.
      change (2 ^ 53) with 9007199254740992 in *.
      rewrite Hsplit in Hvalue. nia. }
    rewrite (SFmul_exact s false my 8796093022208000 mx ey (-43) ex
               (ex - ey + 43)); try assumption; try lia.
    + rewrite xorb_false_r. reflexivity.
    + apply (Z.mul_cancel_r _ _ (2 ^ (ey + 1074))); [lia|].
      assert (Hexp : 2 ^ (ex - ey + 43) * 2 ^ (ey + 1074)
                     = 2 ^ (ex + 1074) * 2 ^ 43).
      { rewrite <- !Z.pow_add_r by lia. f_equal. lia. }
      change (2 ^ 43) with 8796093022208 in Hexp.
      change (Zpos 8796093022208000) with (1000 * 8796093022208). nia.
Qed.

Lemma exact_value_cases (x : float) (v : Z) :
  exact_value x = Some v ->
  (v = 0 /\ exists s, Prim2SF x = S754_zero s)
  \/ (v <> 0 /\ exists s m e, Prim2SF x = S754_finite s m e
                 /\ v = cond_Zopp s (Zpos m * 2 ^ (e + 1074))).
Proof.
  unfold exact_value.
  destruct (Prim2SF x) as [s|s| |s m e] eqn:Hx; intros Hv; try discriminate.
  - left. injection Hv as <-. eauto.
  - right. injection Hv as <-.
    destruct (finite_valid x s m e Hx) as (_ & He & _).
    assert (0 < 2 ^ (e + 1074)) by (apply Z.pow_pos_nonneg; lia).
    split; [destruct s; simpl; nia|]. eauto.
Qed.

(** A quantity in watts that is a thousand times a quantity in
    kilowatts: the two conversions take one to the other. *)
Lemma Watts_Kilowatts_exact (w k : float) (vw vk : Z) :
  exact_value w = Some vw -> exact_value k = Some vk -> vw = vk * 1000 ->
  Convert Watts Kilowatts (Convert Kilowatts Watts w) = w
  /\ Convert Kilowatts Watts (Convert Watts Kilowatts k) = k.
Proof.
  intros Hw Hk Hvalue.
  assert (Hto_k : forall x, Convert Kilowatts Watts x = (x * 1 / 1000)%float)
    by reflexivity.
  assert (Hto_w : forall x, Convert Watts Kilowatts x = (x * 1000 / 1)%float)
    by reflexivity.
  rewrite !Hto_k, !Hto_w, !mul_1_r, !div_1_r.
  destruct (exact_value_cases w vw Hw) as [[Hw0 [sw Hsw]]|[Hw0 (sw & mw & ew & Hsw & Hvw)]];
    destruct (exact_value_cases k vk Hk) as [[Hk0 [sk Hsk]]|[Hk0 (sk & mk & ek & Hsk & Hvk)]];
    try lia.
  - destruct (zero_1000 w sw Hsw) as [Hmul Hdiv].
    destruct (zero_1000 k sk Hsk) as [Hmul' Hdiv'].
    rewrite Hdiv, Hmul, Hmul', Hdiv'. split; reflexivity.
  - destruct (finite_valid w sw mw ew Hsw) as (_ & Hew & _).
    destruct (finite_valid k sk mk ek Hsk) as (_ & Hek & _).
    assert (0 < 2 ^ (ew + 1074)) by (apply Z.pow_pos_nonneg; lia).
    assert (0 < 2 ^ (ek + 1074)) by (apply Z.pow_pos_nonneg; lia).
    assert (Hsign : sw = sk) by (destruct sw, sk; simpl in *; try reflexivity; nia).
    subst sk.
    assert (Hm : Zpos mw * 2 ^ (ew + 1074) = Zpos mk * 2 ^ (ek + 1074) * 1000)
      by (destruct sw; simpl in *; nia).
    destruct (thousand_exact w k sw mw mk ew ek Hsw Hsk Hm) as [Hdiv Hmul].
    rewrite Hdiv, Hmul, Hdiv. split; reflexivity.
Qed.

End FloatFacts.

(** ** Rounding a decimal to the nearest float

    The division of SpecFloat followed by its rounding takes the
    decimal [n/d] to a float of the format that is as near to it as any
    other; the proofs follow the shifts of [binary_round_aux]. *)

Module RoundingFacts.

Import settings.

Lemma shr_1_nonneg (m : Z) (r s : bool) :
  0 <= m ->
  shr_1 {| shr_m := m; shr_r := r; shr_s := s |}
  = {| shr_m := m / 2; shr_r := Z.odd m; shr_s := r || s |}.
Proof.
  intros Hm. destruct m as [|p|p]; [reflexivity| |lia].
  destruct p as [p|p|]; simpl shr_1; f_equal.
  - apply Z.div_unique with (r := 1); lia.
  - apply Z.div_unique with (r := 0); lia.
Qed.

Lemma shr_of_remainder (num den : Z) :
  0 <= num -> 0 < den ->
  shr_of num den
  = {| shr_m := num / den;
       shr_r := den <=? 2 * (num mod den);
       shr_s := negb ((num mod den =? 0) || (2 * (num mod den) =? den)) |}.
Proof.
  intros Hnum Hden. unfold shr_of.
  pose proof (Z.div_mod num den ltac:(lia)) as Hdm.
  pose proof (Z.mod_pos_bound num den Hden) as Hr.
  set (q := num / den) in *. set (r := num mod den) in *.
  destruct (Z.leb_spec den (2 * r)) as [Hge|Hlt].
  - assert (Hq : 2 * num / den = 2 * q + 1)
      by (symmetry; apply Z.div_unique with (r := 2 * r - den); lia).
    assert (Hm : 2 * num mod den = 2 * r - den)
      by (symmetry; apply Z.mod_unique with (q := 2 * q + 1); lia).
    rewrite Hq, Hm. f_equal.
    + rewrite Z.add_comm, Z.odd_add_mul_2. reflexivity.
    + f_equal. destruct (Z.eqb_spec r 0), (Z.eqb_spec (2 * r) den),
        (Z.eqb_spec (2 * r - den) 0); simpl; try reflexivity; lia.
  - assert (Hq : 2 * num / den = 2 * q)
      by (symmetry; apply Z.div_unique with (r := 2 * r); lia).
    assert (Hm : 2 * num mod den = 2 * r)
      by (symmetry; apply Z.mod_unique with (q := 2 * q); lia).
    rewrite Hq, Hm. f_equal.
    + rewrite Z.odd_mul. reflexivity.
    + f_equal. destruct (Z.eqb_spec r 0), (Z.eqb_spec (2 * r) den),
        (Z.eqb_spec (2 * r) 0); simpl; try reflexivity; lia.
Qed.

Lemma shr_1_shr_of (num den : Z) :
  0 <= num -> 0 < den -> shr_1 (shr_of num den) = shr_of num (2 * den).
Proof.
  intros Hnum Hden.
  rewrite (shr_of_remainder num (2 * den)) by lia.
  rewrite (shr_of_remainder num den) by lia.
  pose proof (Z.div_mod num den ltac:(lia)) as Hdm.
  pose proof (Z.mod_pos_bound num den Hden) as Hr.
  set (q := num / den) in *. set (r := num mod den) in *.
  rewrite shr_1_nonneg by (apply Z.div_pos; lia).
  pose proof (Z.div_mod q 2 ltac:(lia)) as Hq2.
  pose proof (Z.mod_pos_bound q 2 ltac:(lia)) as Hq2r.
  assert (Hdiv : num / (2 * den) = q / 2)
    by (symmetry; apply Z.div_unique with (r := den * (q mod 2) + r); nia).
  assert (Hmod : num mod (2 * den) = den * (q mod 2) + r)
    by (symmetry; apply Z.mod_unique with (q := q / 2); nia).
  rewrite Hdiv, Hmod.
  assert (Hodd : Z.odd q = (q mod 2 =? 1)).
  { rewrite Zmod_odd. destruct (Z.odd q); reflexivity. }
  rewrite Hodd.
  assert (Hcases : q mod 2 = 0 \/ q mod 2 = 1) by lia.
  destruct Hcases as [Hc|Hc]; rewrite Hc;
    [rewrite Z.mul_0_r, Z.add_0_l|rewrite Z.mul_1_r]; f_equal.
  - destruct (Z.leb_spec (2 * den) (2 * r)); [lia|reflexivity].
  - destruct (Z.leb_spec den (2 * r)), (Z.eqb_spec r 0), (Z.eqb_spec (2 * r) den),
      (Z.eqb_spec (2 * r) (2 * den)); simpl; try reflexivity; lia.
  - destruct (Z.leb_spec (2 * den) (2 * (den + r))); [reflexivity|lia].
  - destruct (Z.leb_spec den (2 * r)), (Z.eqb_spec r 0), (Z.eqb_spec (2 * r) den),
      (Z.eqb_spec (den + r) 0),
      (Z.eqb_spec (2 * (den + r)) (2 * den)); simpl; try reflexivity; lia.
Qed.

Lemma iter_shr_1_shr_of (p : positive) :
  forall num den, 0 <= num -> 0 < den ->
  SpecFloat.iter_pos shr_1 p (shr_of num den) = shr_of num (den * 2 ^ Zpos p).
Proof.
  induction p as [p IH|p IH|]; intros num den Hnum Hden; cbn [SpecFloat.iter_pos].
  - assert (Hp : 0 < 2 ^ Zpos p) by (apply Z.pow_pos_nonneg; lia).
    rewrite shr_1_shr_of, IH, IH by nia.
    replace (Zpos p~1) with (Zpos p + Zpos p + 1) by lia.
    rewrite !Z.pow_add_r by lia. change (2 ^ 1) with 2.
    f_equal. ring.
  - assert (Hp : 0 < 2 ^ Zpos p) by (apply Z.pow_pos_nonneg; lia).
    rewrite IH, IH by nia.
    replace (Zpos p~0) with (Zpos p + Zpos p) by lia.
    rewrite !Z.pow_add_r by lia.
    f_equal. ring.
  - rewrite shr_1_shr_of by assumption. f_equal. change (2 ^ 1) with 2. ring.
Qed.

Lemma shr_record_of_new_location (num den : Z) :
  0 <= num -> 0 < den ->
  shr_record_of_loc (num / den) (new_location den (num mod den)) = shr_of num den.
Proof.
  intros Hnum Hden. rewrite shr_of_remainder by assumption.
  pose proof (Z.mod_pos_bound num den Hden) as Hr.
  set (q := num / den). set (r := num mod den) in *.
  unfold new_location, new_location_even, new_location_odd.
  assert (Hodd : Z.even den = false -> 2 * r <> den).
  { intros Heven Heq. rewrite <- Heq, Z.even_mul in Heven. discriminate. }
  destruct (Z.even den);
    destruct (Z.eqb_spec r 0) as [Hr0|Hr0];
    destruct (Z.leb_spec den (2 * r));
    destruct (Z.eqb_spec (2 * r) den);
    try (specialize (Hodd eq_refl));
    try lia; try reflexivity.
  - destruct (Z.compare_spec (2 * r) den); try lia; reflexivity.
  - destruct (Z.compare_spec (2 * r) den); try lia; reflexivity.
  - destruct (Z.compare_spec (2 * r) den); try lia; reflexivity.
  - destruct (Z.compare_spec (2 * r + 1) den); try lia; reflexivity.
  - destruct (Z.compare_spec (2 * r + 1) den); try lia; reflexivity.
Qed.

Lemma round_nearest_even_shr_of (num den : Z) :
  0 <= num -> 0 < den ->
  let M := round_nearest_even (shr_m (shr_of num den))
             (loc_of_shr_record (shr_of num den)) in
  num / den <= M <= num / den + 1 /\ - den <= 2 * (M * den - num) <= den.
Proof.
  intros Hnum Hden. rewrite shr_of_remainder by assumption.
  pose proof (Z.div_mod num den ltac:(lia)) as Hdm.
  pose proof (Z.mod_pos_bound num den Hden) as Hr.
  set (q := num / den) in *. set (r := num mod den) in *.
  cbn [shr_m]. unfold loc_of_shr_record.
  destruct (Z.leb_spec den (2 * r)), (Z.eqb_spec r 0), (Z.eqb_spec (2 * r) den);
    cbn [negb orb round_nearest_even]; try destruct (Z.even q); nia.
Qed.

Lemma Zdigits2_bounds (m : Z) :
  0 <= m ->
  0 <= Zdigits2 m /\ m < 2 ^ Zdigits2 m /\ (0 < m -> 2 ^ (Zdigits2 m - 1) <= m).
Proof.
  intros Hm. destruct m as [|p|p]; [simpl; lia| |lia].
  pose proof (FloatFacts.digits2_pos_bounds p). simpl Zdigits2. lia.
Qed.

Lemma pow2_pos (a : Z) : 0 <= a -> 0 < 2 ^ a.
Proof. intros. apply Z.pow_pos_nonneg; lia. Qed.

Lemma pow2_le (a b : Z) : 0 <= a <= b -> 2 ^ a <= 2 ^ b.
Proof. intros. apply Z.pow_le_mono_r; lia. Qed.

Lemma pow2_lt_inv (a b : Z) : 0 <= b -> 2 ^ a < 2 ^ b -> a < b.
Proof. intros Hb Hlt. apply (Z.pow_lt_mono_r_iff 2); lia. Qed.

Lemma lt_mul_chain (a q d X Y : Z) :
  0 < d -> a < (q + 1) * d -> q + 1 <= X -> X <= Y -> a < Y * d.
Proof. intros. nia. Qed.

Lemma le_mul_chain (X q d num : Z) :
  0 < d -> X <= q -> d * q <= num -> X * d <= num.
Proof. intros. nia. Qed.

Lemma le_mul_cross (X Y Z' W n d : Z) :
  0 < Y -> 0 <= W -> 0 < d -> X <= n -> d < Z' -> Z' * Y <= X * W ->
  Y * d <= n * W.
Proof.
  intros HY HW Hd Hn HdZ Hc.
  assert (Y * d <= Y * Z') by nia.
  assert (X * W <= n * W) by nia.
  lia.
Qed.

Lemma scale_bounds (M num den D nP : Z) :
  0 < den -> 0 < D -> num * D = nP * den ->
  - den <= 2 * (M * den - num) <= den ->
  - D <= 2 * (M * D - nP) <= D.
Proof.
  intros Hden HD Heq [Hlo Hhi].
  assert (Hprod : 2 * (M * D - nP) * den = 2 * (M * den - num) * D).
  { transitivity (2 * (M * den * D - nP * den)); [ring|].
    rewrite <- Heq. ring. }
  split.
  - apply (Z.mul_le_mono_pos_r _ _ den); [assumption|].
    rewrite Hprod. transitivity (- den * D); [lia|].
    apply Z.mul_le_mono_nonneg_r; lia.
  - apply (Z.mul_le_mono_pos_r _ _ den); [assumption|].
    rewrite Hprod. transitivity (den * D); [|lia].
    apply Z.mul_le_mono_nonneg_r; lia.
Qed.

Lemma scale_lt (X num den D nP : Z) :
  0 < den -> 0 < D -> num * D = nP * den ->
  (num < X * den -> nP < X * D) /\ (X * den <= num -> X * D <= nP).
Proof.
  intros Hden HD Heq. split; intros H.
  - apply (Z.mul_lt_mono_pos_r den); [assumption|].
    rewrite <- Heq.
    replace (X * D * den) with (X * den * D) by ring.
    apply Z.mul_lt_mono_pos_r; assumption.
  - apply (Z.mul_le_mono_pos_r _ _ den); [assumption|].
    rewrite <- Heq.
    replace (X * D * den) with (X * den * D) by ring.
    apply Z.mul_le_mono_nonneg_r; lia.
Qed.

Lemma nearest_integer (M j D c : Z) :
  0 < D -> - D <= 2 * (M * D - c) <= D ->
  Z.abs (M * D - c) <= Z.abs (j * D - c).
Proof.
  intros HD HM.
  destruct (Z.lt_trichotomy j M) as [Hlt|[Heq|Hgt]].
  - assert (j * D <= M * D - D).
    { replace (M * D - D) with ((M - 1) * D) by ring.
      apply Z.mul_le_mono_nonneg_r; lia. }
    lia.
  - subst j. lia.
  - assert (M * D + D <= j * D).
    { replace (M * D + D) with ((M + 1) * D) by ring.
      apply Z.mul_le_mono_nonneg_r; lia. }
    lia.
Qed.

Lemma pow2_mod5 (k : Z) : 0 <= k -> 2 ^ k mod 5 <> 0.
Proof.
  intros Hk. pattern k. apply natlike_ind; [discriminate| |exact Hk].
  intros x Hx IH. rewrite Z.pow_succ_r, <- Z.mul_mod_idemp_r by lia.
  pose proof (Z.mod_pos_bound (2 ^ x) 5 ltac:(lia)) as Hr.
  assert (Hcases : 2 ^ x mod 5 = 1 \/ 2 ^ x mod 5 = 2
                   \/ 2 ^ x mod 5 = 3 \/ 2 ^ x mod 5 = 4) by lia.
  destruct Hcases as [H|[H|[H|H]]]; rewrite H; discriminate.
Qed.

Lemma pow2_not_thousand (k j : Z) : 0 <= k -> 1000 * j <> 2 ^ k.
Proof.
  intros Hk Heq. apply (pow2_mod5 k Hk). rewrite <- Heq.
  replace (1000 * j) with (200 * j * 5) by ring. apply Z.mod_mul. lia.
Qed.

(** The two errors of a round trip, in units of [1/(1000 P)]: [delta]
    from the float to its decimal and [epsilon] from the decimal to the
    nearest float.  [P] is a power of two, so the two floats are not
    [1/1000] apart. *)
Lemma round_trip_errors (k A W n : Z) :
  0 <= k ->
  2 * n * 2 ^ k <= 2000 * A + 2 ^ k < 2 * (n + 1) * 2 ^ k ->
  Z.abs (W * 1000 - n * 2 ^ k) <= Z.abs (A * 1000 - n * 2 ^ k) ->
  Z.abs (W - A) * 1000 < 2 ^ k
  /\ 2 * n * 2 ^ k <= 2000 * W + 2 ^ k < 2 * (n + 1) * 2 ^ k.
Proof.
  intros Hk HA Hnear.
  pose proof (pow2_not_thousand k (W - A) Hk) as Hno.
  set (P := 2 ^ k) in *. clearbody P.
  lia.
Qed.

Section format.

Context (prec emax : Z) (Hprec : 0 < prec) (Hemax : prec < emax).

Local Abbreviation emin := (SpecFloat.emin prec emax).
Local Abbreviation fexp := (SpecFloat.fexp prec emax).

Lemma fexp_spec (e : Z) : fexp e = Z.max (e - prec) emin.
Proof. reflexivity. Qed.

Lemma emin_spec : emin = 3 - emax - prec.
Proof. reflexivity. Qed.

Lemma pow2_prec : 2 ^ prec = 2 * 2 ^ (prec - 1).
Proof.
  rewrite <- Z.pow_succ_r by lia. f_equal. lia.
Qed.

(** The first shift of [binary_round_aux] after the division of [n] by
    [d]: the quotient is held at some exponent [E] of the format. *)
Lemma divide_shift (n d : positive) :
  exists (num den E : Z),
    0 < num /\ 0 < den /\ emin <= E
    /\ num * (Zpos d * 2 ^ (E - emin)) = Zpos n * 2 ^ (- emin) * den
    /\ num < 2 ^ prec * den
    /\ (emin < E -> 2 ^ (prec - 1) * den <= num)
    /\ (let '(mz, ez, lz) := SFdiv_core_binary prec emax (Zpos n) 0 (Zpos d) 0 in
        shr_fexp prec emax mz ez lz) = (shr_of num den, E).
Proof.
  pose proof (FloatFacts.digits2_pos_bounds n) as [Hn0 Hn1].
  pose proof (FloatFacts.digits2_pos_bounds d) as [Hd0 Hd1].
  unfold SFdiv_core_binary. cbn [Zdigits2].
  set (d1 := Zpos (digits2_pos n)) in *. set (d2 := Zpos (digits2_pos d)) in *.
  assert (Hd1pos : 0 < d1) by (unfold d1; lia).
  assert (Hd2pos : 0 < d2) by (unfold d2; lia).
  rewrite !Z.add_0_r. change (0 - 0) with 0.
  set (e' := Z.min (fexp (d1 - d2)) 0).
  assert (He' : emin <= e' <= 0).
  { unfold e'. rewrite fexp_spec, emin_spec. lia. }
  assert (He'' : emin < e' -> e' <= d1 - d2 - prec).
  { unfold e'. rewrite fexp_spec. lia. }
  clearbody e' d1 d2.
  set (num := Zpos n * 2 ^ (- e')).
  assert (Hpe : 0 < 2 ^ (- e')) by (apply pow2_pos; lia).
  assert (Hnum : 0 < num) by (apply Z.mul_pos_pos; lia).
  assert (Hm' : match 0 - e' with
                | Zpos _ => Z.shiftl (Zpos n) (0 - e')
                | 0 => Zpos n
                | Zneg _ => 0
                end = num).
  { unfold num. replace (0 - e') with (- e') by lia.
    destruct (- e') as [|p|p] eqn:Hs; [| |lia].
    - rewrite Z.pow_0_r. lia.
    - rewrite Z.shiftl_mul_pow2 by lia. reflexivity. }
  rewrite Hm'. clear Hm'.
  rewrite (surjective_pairing (Z.div_eucl num (Zpos d))).
  change (fst (Z.div_eucl num (Zpos d))) with (num / Zpos d).
  change (snd (Z.div_eucl num (Zpos d))) with (num mod Zpos d).
  unfold shr_fexp.
  rewrite shr_record_of_new_location by lia.
  pose proof (Z.div_mod num (Zpos d) ltac:(lia)) as Hdm.
  pose proof (Z.mod_pos_bound num (Zpos d) ltac:(lia)) as Hr.
  assert (Hq0 : 0 <= num / Zpos d) by (apply Z.div_pos; lia).
  set (q0 := num / Zpos d) in *.
  destruct (Zdigits2_bounds q0 Hq0) as (Hdq0 & Hdq1 & Hdq2).
  assert (Hdq3 : q0 = 0 -> Zdigits2 q0 = 0) by (intros Hz; rewrite Hz; reflexivity).
  set (dq := Zdigits2 q0) in *. clearbody dq.
  assert (Hnumq : num < (q0 + 1) * Zpos d) by lia.
  assert (Hq0d : q0 + 1 <= 2 ^ dq) by lia.
  assert (Hqnum : Zpos d * q0 <= num) by lia.
  (* the facts at an exponent [E] *)
  assert (Hfacts : forall E,
            e' <= E -> fexp (dq + e') <= E ->
            (E = fexp (dq + e') \/ E = e') ->
            0 < Zpos d * 2 ^ (E - e') /\ emin <= E
            /\ num * (Zpos d * 2 ^ (E - emin))
               = Zpos n * 2 ^ (- emin) * (Zpos d * 2 ^ (E - e'))
            /\ num < 2 ^ prec * (Zpos d * 2 ^ (E - e'))
            /\ (emin < E -> 2 ^ (prec - 1) * (Zpos d * 2 ^ (E - e')) <= num)).
  { intros E HE Hfexp Hcase.
    assert (Hpk : 0 < 2 ^ (E - e')) by (apply pow2_pos; lia).
    assert (Hp1 : 0 < 2 ^ (prec - 1)) by (apply pow2_pos; lia).
    split; [apply Z.mul_pos_pos; lia|]. split; [lia|].
    split; [|split].
    - unfold num.
      assert (Hs : 2 ^ (- e') * 2 ^ (E - emin) = 2 ^ (- emin) * 2 ^ (E - e')).
      { rewrite <- !Z.pow_add_r by lia. f_equal. lia. }
      transitivity (Zpos n * Zpos d * (2 ^ (- e') * 2 ^ (E - emin))); [ring|].
      rewrite Hs. ring.
    - assert (Hdq : dq <= prec + (E - e'))
        by (clear - Hfexp; rewrite fexp_spec in Hfexp; lia).
      assert (Hle : 2 ^ dq <= 2 ^ prec * 2 ^ (E - e')).
      { rewrite <- Z.pow_add_r by lia. apply pow2_le. lia. }
      replace (2 ^ prec * (Zpos d * 2 ^ (E - e')))
        with (2 ^ prec * 2 ^ (E - e') * Zpos d) by ring.
      apply (lt_mul_chain num q0 (Zpos d) (2 ^ dq)); [lia|assumption..].
    - intros Hlt. destruct Hcase as [Hcase|Hcase].
      + assert (Hdq : dq - 1 = prec - 1 + (E - e'))
          by (clear - Hcase Hlt; rewrite fexp_spec in Hcase; lia).
        assert (Hq0pos : 0 < q0).
        { destruct (Z.eq_dec q0 0) as [Hz|Hz]; [apply Hdq3 in Hz|]; lia. }
        specialize (Hdq2 Hq0pos). rewrite Hdq, Z.pow_add_r in Hdq2 by lia.
        replace (2 ^ (prec - 1) * (Zpos d * 2 ^ (E - e')))
          with (2 ^ (prec - 1) * 2 ^ (E - e') * Zpos d) by ring.
        apply (le_mul_chain _ q0); [lia|assumption..].
      + subst E. rewrite Z.sub_diag, Z.pow_0_r, Z.mul_1_r.
        specialize (He'' Hlt).
        assert (Hle : 2 ^ (d2 + (prec - 1)) <= 2 ^ (d1 - 1 + - e'))
          by (apply pow2_le; lia).
        rewrite !Z.pow_add_r in Hle by lia.
        unfold num.
        apply (le_mul_cross (2 ^ (d1 - 1)) _ (2 ^ d2)); try assumption; lia. }
  set (k := fexp (dq + e') - e').
  destruct k as [|p|p] eqn:Hk.
  - exists num, (Zpos d * 2 ^ (e' - e')), e'. cbn [shr].
    destruct (Hfacts e') as (H1 & H2 & H3 & H4 & H5); [lia|lia|right; reflexivity|].
    repeat (split; [assumption|]).
    rewrite Z.sub_diag, Z.pow_0_r, Z.mul_1_r. reflexivity.
  - exists num, (Zpos d * 2 ^ (e' + Zpos p - e')), (e' + Zpos p). cbn [shr].
    destruct (Hfacts (e' + Zpos p)) as (H1 & H2 & H3 & H4 & H5);
      [lia|lia|left; lia|].
    repeat (split; [assumption|]).
    rewrite iter_shr_1_shr_of by lia.
    replace (e' + Zpos p - e') with (Zpos p) by lia. reflexivity.
  - exists num, (Zpos d * 2 ^ (e' - e')), e'. cbn [shr].
    destruct (Hfacts e') as (H1 & H2 & H3 & H4 & H5); [lia|lia|right; reflexivity|].
    repeat (split; [assumption|]).
    rewrite Z.sub_diag, Z.pow_0_r, Z.mul_1_r. reflexivity.
Qed.

(** The second shift of [binary_round_aux]: a mantissa that the
    rounding took to [2^prec] is put back on [prec] digits. *)
Lemma second_shift (sign : bool) (M E : Z) :
  emin <= E -> 0 <= M <= 2 ^ prec -> (emin < E -> 2 ^ (prec - 1) <= M) ->
  (let '(mrs, e) := shr_fexp prec emax M E loc_Exact in
   match shr_m mrs with
   | 0 => S754_zero sign
   | Zpos m =>
       if e <=? emax - prec then S754_finite sign m e else S754_infinity sign
   | Zneg _ => S754_nan
   end)
  = (if M =? 0 then S754_zero sign
     else if M <? 2 ^ prec
          then if E <=? emax - prec
               then S754_finite sign (Z.to_pos M) E else S754_infinity sign
          else if E + 1 <=? emax - prec
               then S754_finite sign (Z.to_pos (2 ^ (prec - 1))) (E + 1)
               else S754_infinity sign).
Proof.
  intros HE HM Hnormal. unfold shr_fexp.
  assert (Hpp : 0 < 2 ^ prec) by (apply pow2_pos; lia).
  destruct (Z.eqb_spec M 0) as [Hz|Hz].
  - subst M. cbn [Zdigits2 shr_record_of_loc]. rewrite Z.add_0_l.
    assert (Hk : fexp E - E <= 0) by (rewrite fexp_spec; lia).
    destruct (fexp E - E) as [|p|p]; [reflexivity|lia|reflexivity].
  - destruct M as [|m|m]; [lia| |lia]. clear Hz.
    pose proof (FloatFacts.digits2_pos_bounds m) as [Hm0 Hm1].
    cbn [Zdigits2 shr_record_of_loc].
    set (dm := Zpos (digits2_pos m)) in *.
    assert (Hdm : 0 < dm) by (unfold dm; lia). clearbody dm.
    destruct (Z.ltb_spec (Zpos m) (2 ^ prec)) as [Hlt|Hge].
    + assert (Hdm1 : dm <= prec).
      { assert (dm - 1 < prec); [|lia].
        apply pow2_lt_inv; [lia|]. lia. }
      assert (Hdm2 : emin < E -> dm = prec).
      { intros HEE. specialize (Hnormal HEE).
        assert (prec - 1 < dm); [|lia].
        apply pow2_lt_inv; [lia|]. lia. }
      assert (Hk : fexp (dm + E) - E = 0).
      { rewrite fexp_spec.
        destruct (Z.eq_dec E emin) as [HEE|HEE]; [lia|].
        rewrite Hdm2 by lia. lia. }
      rewrite Hk. cbn [shr shr_m Z.to_pos]. reflexivity.
    + assert (Hm : Zpos m = 2 ^ prec) by lia.
      assert (Hdm1 : dm = prec + 1).
      { assert (prec < dm) by (apply pow2_lt_inv; lia).
        assert (dm - 1 < prec + 1); [|lia].
        apply pow2_lt_inv; [lia|].
        rewrite Z.pow_add_r by lia. change (2 ^ 1) with 2. lia. }
      assert (Hk : fexp (dm + E) - E = 1) by (rewrite fexp_spec; lia).
      rewrite Hk. cbn [shr SpecFloat.iter_pos].
      rewrite shr_1_nonneg by lia. cbn [shr_m].
      assert (Hhalf : Zpos m / 2 = 2 ^ (prec - 1)).
      { rewrite Hm. replace prec with (prec - 1 + 1) at 1 by lia.
        rewrite Z.pow_add_r by lia. change (2 ^ 1) with 2.
        apply Z.div_mul. lia. }
      rewrite Hhalf.
      assert (Hp1 : 0 < 2 ^ (prec - 1)) by (apply pow2_pos; lia).
      destruct (2 ^ (prec - 1)) as [|h|h]; [lia| |lia].
      reflexivity.
Qed.

(** The decimal [n/d] rounded to the format: the mantissa [M] at the
    exponent [E] is the integer nearest to the quotient of [n/d] by
    [2^E]; [E] is the least exponent of the format, or [M] has all the
    digits of the format. *)
Lemma round_div_spec (sign : bool) (n d : positive) :
  exists (M E : Z),
    emin <= E /\ 0 <= M <= 2 ^ prec /\ (emin < E -> 2 ^ (prec - 1) <= M)
    /\ - (Zpos d * 2 ^ (E - emin))
       <= 2 * (M * (Zpos d * 2 ^ (E - emin)) - Zpos n * 2 ^ (- emin))
       <= Zpos d * 2 ^ (E - emin)
    /\ (emin < E ->
        2 ^ (prec - 1) * (Zpos d * 2 ^ (E - emin)) <= Zpos n * 2 ^ (- emin))
    /\ (let '(mz, ez, lz) :=
          SFdiv_core_binary prec emax (Zpos n) 0 (Zpos d) 0 in
        binary_round_aux prec emax sign mz ez lz)
       = (if M =? 0 then S754_zero sign
          else if M <? 2 ^ prec
               then if E <=? emax - prec
                    then S754_finite sign (Z.to_pos M) E
                    else S754_infinity sign
               else if E + 1 <=? emax - prec
                    then S754_finite sign (Z.to_pos (2 ^ (prec - 1))) (E + 1)
                    else S754_infinity sign).
Proof.
  destruct (divide_shift n d)
    as (num & den & E & Hnum & Hden & HE & Hscale & Hupper & Hlower & Hshift).
  pose proof (round_nearest_even_shr_of num den ltac:(lia) Hden) as Hround.
  cbv zeta in Hround.
  set (M := round_nearest_even (shr_m (shr_of num den))
              (loc_of_shr_record (shr_of num den))) in *.
  destruct Hround as [HMq HMnear].
  assert (HD : 0 < Zpos d * 2 ^ (E - emin)).
  { apply Z.mul_pos_pos; [lia|apply pow2_pos; lia]. }
  destruct (scale_lt (2 ^ prec) num den _ _ Hden HD Hscale) as [Hup _].
  destruct (scale_lt (2 ^ (prec - 1)) num den _ _ Hden HD Hscale) as [_ Hlow].
  assert (Hq1 : num / den < 2 ^ prec).
  { apply Z.div_lt_upper_bound; [assumption|]. rewrite Z.mul_comm. exact Hupper. }
  assert (Hq0 : 0 <= num / den) by (apply Z.div_pos; lia).
  assert (Hq2 : emin < E -> 2 ^ (prec - 1) <= num / den).
  { intros HEE. apply Z.div_le_lower_bound; [assumption|].
    rewrite Z.mul_comm. apply Hlower. exact HEE. }
  exists M, E.
  split; [exact HE|]. split; [lia|].
  split; [intros HEE; specialize (Hq2 HEE); lia|].
  split; [apply (scale_bounds M num den); assumption|].
  split; [intros HEE; apply Hlow, Hlower, HEE|].
  destruct (SFdiv_core_binary prec emax (Zpos n) 0 (Zpos d) 0) as [[mz ez] lz].
  unfold binary_round_aux. rewrite Hshift. fold M.
  apply second_shift; [exact HE|lia|].
  intros HEE. specialize (Hq2 HEE). lia.
Qed.

(** A float of the format: its mantissa has at most [prec] digits and
    its exponent is at least [emin]. *)
Lemma bounded_spec (m : positive) (e : Z) :
  bounded prec emax m e = true ->
  emin <= e <= emax - prec /\ Zpos m < 2 ^ prec.
Proof.
  unfold bounded, canonical_mantissa. intros H.
  apply andb_true_iff in H as [H1 H2].
  apply Z.eqb_eq in H1. apply Z.leb_le in H2. rewrite fexp_spec in H1.
  pose proof (FloatFacts.digits2_pos_bounds m) as [_ Hm].
  assert (2 ^ Zpos (digits2_pos m) <= 2 ^ prec) by (apply pow2_le; lia).
  lia.
Qed.

Lemma bounded_intro (m : positive) (e : Z) :
  emin <= e <= emax - prec -> Zpos m < 2 ^ prec ->
  (emin < e -> 2 ^ (prec - 1) <= Zpos m) ->
  bounded prec emax m e = true.
Proof.
  intros He Hm Hnormal. unfold bounded, canonical_mantissa.
  apply andb_true_iff. split; [|apply Z.leb_le; lia].
  apply Z.eqb_eq. rewrite fexp_spec.
  pose proof (FloatFacts.digits2_pos_bounds m) as [Hm0 Hm1].
  set (dm := Zpos (digits2_pos m)) in *.
  assert (0 < dm) by (unfold dm; lia). clearbody dm.
  assert (dm - 1 < prec) by (apply pow2_lt_inv; lia).
  destruct (Z.eq_dec e emin) as [HE|HE]; [lia|].
  assert (prec - 1 < dm) by (apply pow2_lt_inv; lia).
  lia.
Qed.

(** No float of the format is nearer to [n/d] than the rounded one.
    The values are in units of [2^emin]. *)
Lemma rounded_is_nearest (n d : positive) (M E : Z) (m : positive) (e : Z) :
  emin <= E ->
  - (Zpos d * 2 ^ (E - emin))
  <= 2 * (M * (Zpos d * 2 ^ (E - emin)) - Zpos n * 2 ^ (- emin))
  <= Zpos d * 2 ^ (E - emin) ->
  (emin < E ->
   2 ^ (prec - 1) * (Zpos d * 2 ^ (E - emin)) <= Zpos n * 2 ^ (- emin)) ->
  bounded prec emax m e = true ->
  Z.abs (M * 2 ^ (E - emin) * Zpos d - Zpos n * 2 ^ (- emin))
  <= Z.abs (Zpos m * 2 ^ (e - emin) * Zpos d - Zpos n * 2 ^ (- emin)).
Proof.
  intros HE Hnear Hlower Hb.
  destruct (bounded_spec m e Hb) as [He Hm].
  assert (HG : 0 < 2 ^ (E - emin)) by (apply pow2_pos; lia).
  assert (HD : 0 < Zpos d * 2 ^ (E - emin)) by (apply Z.mul_pos_pos; lia).
  set (D := Zpos d * 2 ^ (E - emin)) in *.
  set (c := Zpos n * 2 ^ (- emin)) in *.
  replace (M * 2 ^ (E - emin) * Zpos d) with (M * D) by (unfold D; ring).
  destruct (Z.le_gt_cases E e) as [Hle|Hgt].
  - replace (Zpos m * 2 ^ (e - emin) * Zpos d)
      with (Zpos m * 2 ^ (e - E) * D).
    + apply nearest_integer; assumption.
    + unfold D. replace (e - emin) with (e - E + (E - emin)) by lia.
      rewrite Z.pow_add_r by lia. ring.
  - specialize (Hlower ltac:(lia)).
    pose proof (nearest_integer M (2 ^ (prec - 1)) D c HD Hnear) as Hcmp.
    assert (Hz : Zpos m * 2 ^ (e - emin) * Zpos d <= 2 ^ (prec - 1) * D).
    { unfold D.
      assert (Hpow : 2 ^ prec * 2 ^ (e - emin) <= 2 ^ (prec - 1) * 2 ^ (E - emin)).
      { rewrite <- !Z.pow_add_r by lia. apply pow2_le. lia. }
      assert (Hpe : 0 < 2 ^ (e - emin)) by (apply pow2_pos; lia).
      assert (Zpos m * 2 ^ (e - emin) <= 2 ^ prec * 2 ^ (e - emin))
        by (apply Z.mul_le_mono_nonneg_r; lia).
      replace (2 ^ (prec - 1) * (Zpos d * 2 ^ (E - emin)))
        with (2 ^ (prec - 1) * 2 ^ (E - emin) * Zpos d) by ring.
      apply Z.mul_le_mono_nonneg_r; lia. }
    lia.
Qed.

(** The value of the rounded float does not change when its mantissa
    is put back on [prec] digits, and it is a float of the format
    unless it overflows. *)
Lemma rounded_float (sign : bool) (M E : Z) :
  emin <= E -> 0 < M <= 2 ^ prec -> (emin < E -> 2 ^ (prec - 1) <= M) ->
  M * 2 ^ (E - emin) < 2 ^ (emax - emin) ->
  exists (m : positive) (e : Z),
    (if M =? 0 then S754_zero sign
     else if M <? 2 ^ prec
          then if E <=? emax - prec
               then S754_finite sign (Z.to_pos M) E else S754_infinity sign
          else if E + 1 <=? emax - prec
               then S754_finite sign (Z.to_pos (2 ^ (prec - 1))) (E + 1)
               else S754_infinity sign)
    = S754_finite sign m e
    /\ bounded prec emax m e = true
    /\ Zpos m * 2 ^ (e - emin) = M * 2 ^ (E - emin).
Proof.
  intros HE HM Hnormal Hmax.
  assert (Hemin : emin <= emax - prec) by (rewrite emin_spec; lia).
  assert (HG : 0 < 2 ^ (E - emin)) by (apply pow2_pos; lia).
  assert (Hp1 : 0 < 2 ^ (prec - 1)) by (apply pow2_pos; lia).
  destruct (Z.eqb_spec M 0) as [Hz|Hz]; [lia|].
  destruct (Z.ltb_spec M (2 ^ prec)) as [Hlt|Hge].
  - assert (HEmax : E <= emax - prec).
    { destruct (Z.eq_dec E emin) as [HEE|HEE]; [lia|].
      specialize (Hnormal ltac:(lia)).
      assert (Hlt' : 2 ^ (prec - 1 + (E - emin)) < 2 ^ (emax - emin)).
      { rewrite Z.pow_add_r by lia.
        apply Z.le_lt_trans with (2 := Hmax).
        apply Z.mul_le_mono_nonneg_r; lia. }
      apply pow2_lt_inv in Hlt'; lia. }
    apply Z.leb_le in HEmax. rewrite HEmax. apply Z.leb_le in HEmax.
    exists (Z.to_pos M), E.
    rewrite Z2Pos.id by lia.
    split; [reflexivity|]. split; [|reflexivity].
    apply bounded_intro; rewrite ?Z2Pos.id by lia; [lia|lia|assumption].
  - assert (HMeq : M = 2 ^ prec) by lia.
    assert (HEmax : E + 1 <= emax - prec).
    { assert (Hlt' : 2 ^ (prec + (E - emin)) < 2 ^ (emax - emin)).
      { rewrite Z.pow_add_r by lia. rewrite <- HMeq. exact Hmax. }
      apply pow2_lt_inv in Hlt'; lia. }
    apply Z.leb_le in HEmax. rewrite HEmax. apply Z.leb_le in HEmax.
    exists (Z.to_pos (2 ^ (prec - 1))), (E + 1).
    rewrite Z2Pos.id by lia.
    split; [reflexivity|]. split.
    + apply bounded_intro; rewrite ?Z2Pos.id by lia; [lia| |lia].
      rewrite pow2_prec. lia.
    + rewrite HMeq, pow2_prec.
      replace (E + 1 - emin) with (1 + (E - emin)) by lia.
      rewrite Z.pow_add_r by lia. change (2 ^ 1) with 2. ring.
Qed.

(** The round trip of a positive float of the format through its
    decimal with three places: [n] is the number of thousandths nearest
    to the float [m * 2^e].  The decimal [n/1000] is read back as a
    float of the format that is less than [1/1000] away and has the
    same nearest number of thousandths.  The values are in units of
    [2^emin]. *)
Lemma round_trip_scaled (sign : bool) (m : positive) (e : Z) (n : positive) :
  bounded prec emax m e = true ->
  2 * Zpos n * 2 ^ (- emin)
  <= 2000 * (Zpos m * 2 ^ (e - emin)) + 2 ^ (- emin)
  < 2 * (Zpos n + 1) * 2 ^ (- emin) ->
  exists (m' : positive) (e' : Z),
    (let '(mz, ez, lz) :=
       SFdiv_core_binary prec emax (Zpos n) 0 1000 0 in
     binary_round_aux prec emax sign mz ez lz) = S754_finite sign m' e'
    /\ bounded prec emax m' e' = true
    /\ Z.abs (Zpos m' * 2 ^ (e' - emin) - Zpos m * 2 ^ (e - emin)) * 1000
       < 2 ^ (- emin)
    /\ 2 * Zpos n * 2 ^ (- emin)
       <= 2000 * (Zpos m' * 2 ^ (e' - emin)) + 2 ^ (- emin)
       < 2 * (Zpos n + 1) * 2 ^ (- emin).
Proof.
  intros Hb Hn.
  assert (Hemin : emin <= 0) by (rewrite emin_spec; lia).
  destruct (round_div_spec sign n 1000)
    as (M & E & HE & HM & Hnormal & Hnear & Hlower & Hresult).
  pose proof (rounded_is_nearest n 1000 M E m e HE Hnear Hlower Hb) as Hbest.
  destruct (bounded_spec m e Hb) as [He Hm].
  destruct (round_trip_errors (- emin) (Zpos m * 2 ^ (e - emin))
              (M * 2 ^ (E - emin)) (Zpos n) ltac:(lia) Hn Hbest)
    as [Hclose Hthousandths].
  assert (HP : 0 < 2 ^ (- emin)) by (apply pow2_pos; lia).
  assert (HG : 0 < 2 ^ (E - emin)) by (apply pow2_pos; lia).
  assert (HnP : 2 ^ (- emin) <= Zpos n * 2 ^ (- emin)) by (clear - HP; nia).
  assert (HW : 0 < M * 2 ^ (E - emin)) by lia.
  assert (HMpos : 0 < M).
  { destruct (Z.eq_dec M 0) as [Hz|Hz]; [rewrite Hz in HW; lia|lia]. }
  assert (Hmax : M * 2 ^ (E - emin) < 2 ^ (emax - emin)).
  { assert (Hpe : 0 < 2 ^ (e - emin)) by (apply pow2_pos; lia).
    assert (HA : (Zpos m + 1) * 2 ^ (e - emin) <= 2 ^ prec * 2 ^ (e - emin))
      by (apply Z.mul_le_mono_nonneg_r; lia).
    rewrite <- Z.pow_add_r in HA by lia.
    destruct (Z.le_gt_cases 0 e) as [He0|He0].
    - assert (Hunit : 2 ^ (- emin) <= 2 ^ (e - emin)) by (apply pow2_le; lia).
      assert (Htop : 2 ^ (prec + (e - emin)) <= 2 ^ (emax - emin))
        by (apply pow2_le; lia).
      lia.
    - assert (Hsmall : 2 ^ (prec + (e - emin)) <= 2 ^ (prec - 1 - emin))
        by (apply pow2_le; lia).
      assert (Hunit : 2 ^ (- emin) <= 2 ^ (prec - 1 - emin))
        by (apply pow2_le; lia).
      assert (Htop : 2 * 2 ^ (prec - 1 - emin) <= 2 ^ (emax - emin)).
      { rewrite <- Z.pow_succ_r by lia. apply pow2_le. lia. }
      lia. }
  destruct (rounded_float sign M E HE ltac:(lia) Hnormal Hmax)
    as (m' & e' & Hfloat & Hb' & Hvalue).
  exists m', e'. rewrite Hresult, Hfloat, Hvalue.
  split; [reflexivity|]. split; [exact Hb'|]. split; assumption.
Qed.

End format.

End RoundingFacts.

(** ** Conversion between quantities *)

Module ConvertFacts.

Import Ratio sensor.

Local Open Scope float_scope.
Local Open Scope Z_scope.

(** Truncating division of a non-negative number is the floor of the
    exact quotient. *)
Lemma quot_floor (a d : Z) :
  0 <= a -> 0 < d -> d * (a ÷ d) <= a < d * (a ÷ d + 1).
Proof.
  intros Ha Hd. rewrite Z.quot_div_nonneg by lia.
  pose proof (Z.mul_div_le a d Hd).
  pose proof (Z.mul_succ_div_gt a d Hd). lia.
Qed.

(** [Convert::from] on 32-bit quantities, for a quotient of the ratios
    whose members fit 32 bits. *)
Lemma Convert_uint32 (To From : Quantity uint32_t) (from : Z) :
  is_u32 (num (Divide To From)) -> is_u32 (den (Divide To From)) ->
  Convert To From from
  = wrap32 (from * num (Divide To From)) ÷ den (Divide To From).
Proof.
  intros Hn Hd.
  unfold Convert, arith_div, arith_mul, arith_cast, uint32_arith.
  rewrite (wrap32_small (num _)), (wrap32_small (den _)) by assumption.
  reflexivity.
Qed.

Lemma Divide_energy (To From : Quantity uint32_t) :
  In To energy_quantities -> In From energy_quantities ->
  Divide_ok To From = true.
Proof.
  unfold energy_quantities; simpl.
  intros [<-|[<-|[<-|[]]]] [<-|[<-|[<-|[]]]]; vm_compute; reflexivity.
Qed.

(** The product of the unreduced conversion wraps around: 1194 kWh are
    4_298_400_000 watt-seconds, which 32 bits do not hold. *)
Lemma Convert_wraps_around :
  Convert WattSeconds KilowattHours 1194
  <> 1194 * num (Divide WattSeconds KilowattHours)
       ÷ den (Divide WattSeconds KilowattHours).
Proof. vm_compute. discriminate. Qed.

(** C2 (amended): between two energy quantities (the integer-valued
    types), [Convert<To, From>::from] multiplies by the numerator and
    divides by the denominator of [From::Ratio / To::Ratio] in lowest
    terms, in 32-bit unsigned arithmetic: the product wraps around
    modulo [2^32] before the division.  When the product fits 32 bits
    the result is the exact quotient truncated toward zero.  Between
    the power quantities the same expression is evaluated in [double]
    arithmetic. *)
Theorem Convert_from (To From : Quantity uint32_t) (from : Z) :
  In To energy_quantities -> In From energy_quantities -> is_u32 from ->
  let r := Divide To From in
  (0 < num r /\ 0 < den r /\ Z.gcd (num r) (den r) = 1
   /\ num r * (den (Ratio From) * num (Ratio To))
      = den r * (num (Ratio From) * den (Ratio To)))
  /\ Convert To From from = wrap32 (from * num r) ÷ den r
  /\ (from * num r <= UINT32_MAX ->
      Convert To From from = (from * num r) ÷ den r
      /\ den r * Convert To From from <= from * num r
         < den r * (Convert To From from + 1))
  /\ (forall (To' From' : Quantity double) (x : double),
        Convert To' From' x
        = PrimFloat.div
            (PrimFloat.mul x (double_of_Z (num (Divide To' From'))))
            (double_of_Z (den (Divide To' From')))).
Proof.
  intros HTo HFrom Hfrom r.
  pose proof (Divide_energy To From HTo HFrom) as Hok.
  unfold Divide_ok in Hok. fold r in Hok.
  repeat (apply andb_true_iff in Hok as [Hok ?]).
  repeat match goal with
         | H : (_ <? _) = true |- _ => apply Z.ltb_lt in H
         | H : (_ <=? _) = true |- _ => apply Z.leb_le in H
         | H : (_ =? _) = true |- _ => apply Z.eqb_eq in H
         end.
  assert (Hconv : Convert To From from = wrap32 (from * num r) ÷ den r).
  { apply Convert_uint32; unfold is_u32; fold r; lia. }
  split; [tauto|].
  split; [exact Hconv|].
  split; [|reflexivity].
  intros Hfit. rewrite Hconv.
  unfold is_u32 in Hfrom.
  rewrite wrap32_small by (unfold is_u32; nia).
  split; [reflexivity|].
  apply quot_floor; nia.
Qed.

Lemma Convert_from_witness :
  Convert KilowattHours WattSeconds 7199999 = 1
  /\ Convert WattSeconds WattHours 2 = 7200.
Proof.
  split.
  - destruct (Convert_from KilowattHours WattSeconds 7199999)
      as (_ & _ & Hexact & _);
      [simpl; auto | simpl; auto | unfold is_u32, UINT32_MAX; lia |].
    destruct Hexact as [-> _]; [vm_compute; discriminate|].
    vm_compute. reflexivity.
  - destruct (Convert_from WattSeconds WattHours 2)
      as (_ & _ & Hexact & _);
      [simpl; auto | simpl; auto | unfold is_u32, UINT32_MAX; lia |].
    destruct Hexact as [-> _]; [vm_compute; discriminate|].
    vm_compute. reflexivity.
Defined.

(** The round trip of 3_599_999 watt-seconds through kilowatt-hours
    loses all of them: the error is not below one watt-second, the
    unit of the finer type. *)
Lemma roundtrip_error_exceeds_finer_unit :
  ~ (3599999
     - Convert WattSeconds KilowattHours
         (Convert KilowattHours WattSeconds 3599999) < 1).
Proof. vm_compute. discriminate. Qed.

(** Outside the values representable in both types the conversions
    round: 1001 W becomes 1.0009999999999999 kW (1.001 is not a
    double), and back 1000.9999999999999 W. *)
Lemma Watts_roundtrip_rounds :
  Convert Watts Kilowatts (Convert Kilowatts Watts 1001%float) <> 1001%float.
Proof.
  intros Heq.
  apply (f_equal (fun x => PrimFloat.ltb x 1001%float)) in Heq.
  vm_compute in Heq. discriminate.
Qed.

Lemma Kilowatts_roundtrip_rounds :
  Convert Kilowatts Watts (Convert Watts Kilowatts 0x1.590e47aaa8340p-6%float)
  <> 0x1.590e47aaa8340p-6%float.
Proof.
  intros Heq.
  apply (f_equal (fun x => PrimFloat.ltb x 0x1.590e47aaa8340p-6%float)) in Heq.
  vm_compute in Heq. discriminate.
Qed.

(** Hence 1001 W is not representable in kilowatts, and the kilowatt
    value above is not representable in watts. *)
Lemma Watts_1001_not_representable :
  ~ representable_in Kilowatts Watts 1001%float.
Proof.
  intros (y & vx & vy & Hx & Hy & Hvalue).
  change (num (Divide Kilowatts Watts)) with 1 in Hvalue.
  change (den (Divide Kilowatts Watts)) with 1000 in Hvalue.
  apply Watts_roundtrip_rounds.
  apply (FloatFacts.Watts_Kilowatts_exact 1001%float y vx vy Hx Hy). lia.
Qed.

Lemma Kilowatts_not_representable :
  ~ representable_in Watts Kilowatts 0x1.590e47aaa8340p-6%float.
Proof.
  intros (y & vx & vy & Hx & Hy & Hvalue).
  change (num (Divide Watts Kilowatts)) with 1000 in Hvalue.
  change (den (Divide Watts Kilowatts)) with 1 in Hvalue.
  apply Kilowatts_roundtrip_rounds.
  apply (FloatFacts.Watts_Kilowatts_exact y 0x1.590e47aaa8340p-6%float
           vy vx Hy Hx). lia.
Qed.

(** C6 (amended): converting Watts to Kilowatts and back, and
    Kilowatts to Watts and back, is the identity for every input that
    is representable in both types.  Converting WattSeconds to
    KilowattHours and back truncates to a whole number of
    kilowatt-hours: the result is the input less its remainder modulo
    3_600_000, so the error is less than one unit of the coarser type
    (3_600_000 watt-seconds), and zero exactly for whole
    kilowatt-hours. *)
Theorem roundtrip_truncates (ws : Z) (x : double) :
  is_u32 ws ->
  let back :=
    Convert WattSeconds KilowattHours (Convert KilowattHours WattSeconds ws) in
  Convert KilowattHours WattSeconds ws = ws ÷ 3600000
  /\ back = ws - ws mod 3600000
  /\ 0 <= ws - back < 3600000
  /\ (back = ws <-> ws mod 3600000 = 0)
  /\ (representable_in Kilowatts Watts x ->
      Convert Watts Kilowatts (Convert Kilowatts Watts x) = x)
  /\ (representable_in Watts Kilowatts x ->
      Convert Kilowatts Watts (Convert Watts Kilowatts x) = x).
Proof.
  intros Hws back.
  assert (Hto : Convert KilowattHours WattSeconds ws = ws ÷ 3600000).
  { rewrite Convert_uint32 by (vm_compute; split; discriminate).
    change (num (Divide KilowattHours WattSeconds)) with 1.
    change (den (Divide KilowattHours WattSeconds)) with 3600000.
    rewrite Z.mul_1_r, wrap32_small by assumption. reflexivity. }
  assert (Hback : back = ws - ws mod 3600000).
  { unfold back. rewrite Hto.
    rewrite Convert_uint32 by (vm_compute; split; discriminate).
    change (num (Divide WattSeconds KilowattHours)) with 3600000.
    change (den (Divide WattSeconds KilowattHours)) with 1.
    unfold is_u32, UINT32_MAX in Hws.
    rewrite (Z.quot_div_nonneg ws 3600000) by lia.
    pose proof (Z.div_mod ws 3600000 ltac:(lia)) as Hdm.
    pose proof (Z.mod_pos_bound ws 3600000 ltac:(lia)) as Hmod.
    rewrite wrap32_small by (unfold is_u32, UINT32_MAX; lia).
    rewrite Z.quot_1_r. lia. }
  pose proof (Z.mod_pos_bound ws 3600000 ltac:(lia)) as Hmod.
  split; [exact Hto|].
  split; [exact Hback|].
  split; [lia|].
  split; [lia|].
  split.
  - intros (y & vx & vy & Hx & Hy & Hvalue).
    change (num (Divide Kilowatts Watts)) with 1 in Hvalue.
    change (den (Divide Kilowatts Watts)) with 1000 in Hvalue.
    apply (FloatFacts.Watts_Kilowatts_exact x y vx vy Hx Hy). lia.
  - intros (y & vx & vy & Hx & Hy & Hvalue).
    change (num (Divide Watts Kilowatts)) with 1000 in Hvalue.
    change (den (Divide Watts Kilowatts)) with 1 in Hvalue.
    apply (FloatFacts.Watts_Kilowatts_exact y x vy vx Hy Hx). lia.
Qed.

Lemma roundtrip_truncates_witness :
  Convert WattSeconds KilowattHours (Convert KilowattHours WattSeconds 7200123)
  = 7200000
  /\ Convert Watts Kilowatts (Convert Kilowatts Watts 1500%float) = 1500%float
  /\ Convert Kilowatts Watts (Convert Watts Kilowatts 1.5%float) = 1.5%float.
Proof.
  destruct (roundtrip_truncates 7200123 1500%float)
    as (_ & Hback & _ & _ & Hwatts & _);
    [unfold is_u32, UINT32_MAX; lia|].
  destruct (roundtrip_truncates 7200123 1.5%float)
    as (_ & _ & _ & _ & _ & Hkilowatts);
    [unfold is_u32, UINT32_MAX; lia|].
  split; [rewrite Hback; reflexivity|].
  split.
  - apply Hwatts. exists 1.5%float. eexists. eexists.
    split; [vm_compute; reflexivity|].
    split; [vm_compute; reflexivity|]. vm_compute. reflexivity.
  - apply Hkilowatts. exists 1500%float. eexists. eexists.
    split; [vm_compute; reflexivity|].
    split; [vm_compute; reflexivity|]. vm_compute. reflexivity.
Defined.

End ConvertFacts.

(** ** The magnitude registry *)

Module MagnitudeFacts.

Import sensor.

(** C7: for every index, [magnitudeInfo] and [magnitudeValue] return a
    record and do not fault.  For every index at or past
    [magnitudeCount()] the record is the sentinel, whose type is the
    "none" type; below it the record is the one of the slot. *)
Theorem magnitude_out_of_bounds (r : Registry) (index : nat) :
  exists (info : Info) (value : Value),
    magnitudeInfo r index = Some info
    /\ magnitudeValue r index = Some value
    /\ ((magnitudeCount r <= index)%nat ->
        info = Info_none /\ value = Value_none
        /\ info_type info = MAGNITUDE_NONE
        /\ value_type value = MAGNITUDE_NONE)
    /\ ((index < magnitudeCount r)%nat ->
        exists m, magnitudes r !! index = Some m
          /\ info = magnitude_info m
          /\ value = (if realtime r then magnitude_last m
                      else magnitude_reported m)).
Proof.
  unfold magnitudeInfo, magnitudeValue, magnitude_at.
  destruct (decide (index < magnitudeCount r)%nat) as [Hlt|Hge].
  - destruct (lookup_lt_is_Some_2 (magnitudes r) index Hlt) as [m Hm].
    rewrite Hm. simpl.
    exists (magnitude_info m),
      ((if realtime r then magnitude_last else magnitude_reported) m).
    split; [reflexivity|]. split; [reflexivity|].
    split; [intros; lia|].
    intros _. exists m. split; [reflexivity|]. split; [reflexivity|].
    destruct (realtime r); reflexivity.
  - exists Info_none, Value_none.
    split; [reflexivity|]. split; [reflexivity|].
    split; [intros _; repeat split|intros; lia].
Qed.

Lemma magnitude_out_of_bounds_witness :
  (info_type <$> magnitudeInfo example_registry 2) = Some MAGNITUDE_NONE
  /\ (value_type <$> magnitudeValue example_registry 255) = Some MAGNITUDE_NONE
  /\ (info_type <$> magnitudeInfo example_registry 1) = Some 2.
Proof.
  destruct (magnitude_out_of_bounds example_registry 2)
    as (info & value0 & Hinfo & _ & Hout & _).
  destruct (magnitude_out_of_bounds example_registry 255)
    as (info0 & value & _ & Hvalue & Hout' & _).
  destruct (magnitude_out_of_bounds example_registry 1)
    as (info' & value' & Hinfo' & _ & _ & Hin).
  destruct Hout as (_ & _ & Htype & _); [unfold magnitudeCount; simpl; lia|].
  destruct Hout' as (_ & _ & _ & Htype'); [unfold magnitudeCount; simpl; lia|].
  destruct Hin as (m & Hm & Hslot & _); [unfold magnitudeCount; simpl; lia|].
  rewrite Hinfo, Hvalue, Hinfo'. simpl.
  rewrite Htype, Htype', Hslot.
  injection Hm as <-. repeat split.
Defined.

End MagnitudeFacts.

(** ** Serialization round trips *)

Module SerializeFacts.

Import settings.

Lemma digit_char_spec (d : Z) :
  0 <= d < 10 ->
  is_digit (digit_char d) = true /\ digit_value (digit_char d) = d.
Proof.
  intros Hd.
  assert (Hcases : d = 0 \/ d = 1 \/ d = 2 \/ d = 3 \/ d = 4 \/ d = 5
                   \/ d = 6 \/ d = 7 \/ d = 8 \/ d = 9) by lia.
  repeat destruct Hcases as [->|Hcases]; try subst d; split; reflexivity.
Qed.

Lemma utoa_unfold (base value : Z) :
  utoa base value =
    if decide (2 <= base /\ base <= value)
    then utoa base (value / base)
           +:+ String (digit_char (value mod base)) EmptyString
    else String (digit_char value) EmptyString.
Proof.
  rewrite (utoa_equation_1 base value).
  destruct (decide (2 <= base /\ base <= value)); reflexivity.
Qed.

Lemma append_cons (c : ascii) (s1 s2 : string) :
  String c s1 +:+ s2 = String c (s1 +:+ s2).
Proof. reflexivity. Qed.

Lemma append_nil_l (s : string) : EmptyString +:+ s = s.
Proof. reflexivity. Qed.

Lemma append_assoc (s1 s2 s3 : string) :
  (s1 +:+ s2) +:+ s3 = s1 +:+ (s2 +:+ s3).
Proof.
  induction s1 as [|c s1 IH]; [reflexivity|].
  now rewrite !append_cons, IH.
Qed.

Lemma append_nil_r (s : string) : s +:+ EmptyString = s.
Proof.
  induction s as [|c s IH]; [reflexivity|]. now rewrite append_cons, IH.
Qed.

(** The decimal digits of [value] are read back as [value], whatever
    follows them. *)
Section reading.

Context {A : Type} (read : string -> Z -> A).
Context (read_digit : forall c s acc,
            is_digit c = true ->
            read (String c s) acc = read s (10 * acc + digit_value c)).

Lemma read_utoa (value : Z) :
  0 <= value ->
  forall rest, read (utoa 10 value +:+ rest) 0 = read rest value.
Proof.
  intros Hvalue. generalize Hvalue. pattern value.
  apply Z_lt_induction; [|assumption].
  clear value Hvalue. intros value IH Hvalue rest. rewrite utoa_unfold.
  destruct (decide (2 <= 10 /\ 10 <= value)) as [[_ Hbig]|Hsmall].
  - rewrite append_assoc, append_cons, append_nil_l.
    assert (0 <= value / 10 < value)
      by (split; [apply Z.div_pos | apply Z.div_lt]; lia).
    rewrite IH by lia.
    destruct (digit_char_spec (value mod 10)) as [Hd Hv];
      [apply Z.mod_pos_bound; lia|].
    rewrite read_digit, Hv by assumption.
    pose proof (Z.div_mod value 10). f_equal; lia.
  - rewrite append_cons, append_nil_l.
    assert (Hrange : 0 <= value < 10) by lia.
    destruct (digit_char_spec value Hrange) as [Hd Hv].
    rewrite read_digit, Hv by assumption. f_equal; lia.
Qed.

End reading.

(** The text of a non-negative number starts with a digit. *)
Lemma utoa_head (value : Z) :
  0 <= value ->
  exists c s, utoa 10 value = String c s /\ is_digit c = true.
Proof.
  intros Hvalue. generalize Hvalue. pattern value.
  apply Z_lt_induction; [|assumption].
  clear value Hvalue. intros value IH Hvalue. rewrite utoa_unfold.
  destruct (decide (2 <= 10 /\ 10 <= value)) as [[_ Hbig]|Hsmall].
  - assert (0 <= value / 10 < value)
      by (split; [apply Z.div_pos | apply Z.div_lt]; lia).
    destruct (IH (value / 10)) as (c & s & -> & Hc); [lia|lia|].
    rewrite append_cons. eauto.
  - eexists _, _. split; [reflexivity|].
    apply digit_char_spec. lia.
Qed.

Lemma not_minus_of_digit (c : ascii) :
  is_digit c = true -> Ascii.eqb c "-" = false.
Proof.
  intros Hc. destruct (Ascii.eqb_spec c "-") as [->|]; [discriminate|reflexivity].
Qed.

Lemma parse_digits_digit (c : ascii) (s : string) (acc : Z) :
  is_digit c = true ->
  parse_digits (String c s) acc = parse_digits s (10 * acc + digit_value c).
Proof. intros Hc. simpl. rewrite Hc. reflexivity. Qed.

Lemma parse_unsigned_utoa (value : Z) :
  0 <= value -> parse_unsigned (utoa 10 value) = Some value.
Proof.
  intros Hv. destruct (utoa_head value Hv) as (c & s & Heq & _).
  unfold parse_unsigned. rewrite Heq, <- Heq.
  rewrite <- (append_nil_r (utoa 10 value)).
  rewrite (read_utoa parse_digits parse_digits_digit value Hv).
  reflexivity.
Qed.

Lemma parse_integer_utoa (value : Z) :
  0 <= value -> parse_integer (utoa 10 value) = Some value.
Proof.
  intros Hv. pose proof (parse_unsigned_utoa value Hv) as Hparse.
  destruct (utoa_head value Hv) as (c & s & Heq & Hc).
  rewrite Heq in *. unfold parse_integer.
  rewrite (not_minus_of_digit c Hc). exact Hparse.
Qed.

Lemma parse_integer_itoa (value : Z) :
  parse_integer (itoa 10 value) = Some value.
Proof.
  unfold itoa. destruct (Z.ltb_spec value 0) as [Hneg|Hpos].
  - simpl. rewrite parse_unsigned_utoa by lia. simpl. f_equal. lia.
  - apply parse_integer_utoa. assumption.
Qed.

Lemma parse_in_range (t : IntType) (text : string) (x : Z) :
  parse_integer text = Some x -> in_range t x ->
  convert (TInt t) text = x.
Proof.
  intros Hparse [Hlo Hhi]. unfold convert, parse. rewrite Hparse. simpl.
  apply Z.leb_le in Hlo, Hhi. rewrite Hlo, Hhi. reflexivity.
Qed.

Lemma integer_roundtrip (t : IntType) (x : Z) :
  in_range t x -> convert (TInt t) (serialize (TInt t) x) = x.
Proof.
  intros Hx. apply parse_in_range; [|assumption].
  destruct t; simpl;
    unfold serialize_int8, serialize_int16, serialize_int32, serialize_long,
      serialize_uint8, serialize_uint16, serialize_ulong, serialize_uint32;
    try apply parse_integer_itoa;
    unfold in_range, min_value, max_value in Hx; simpl in Hx;
    try (apply parse_integer_utoa; lia).
  rewrite wrap32_small by (unfold is_u32, UINT32_MAX; lia).
  apply parse_integer_utoa; lia.
Qed.

Lemma bool_roundtrip (b : bool) : convert TBool (serialize TBool b) = b.
Proof. destruct b; reflexivity. Qed.

(** *** Floating values *)

Lemma parse_decimal_digit (c : ascii) (s : string) (acc : Z) :
  is_digit c = true ->
  parse_decimal (String c s) acc = parse_decimal s (10 * acc + digit_value c).
Proof. intros Hc. simpl. rewrite Hc. reflexivity. Qed.

Lemma parse_decimal_point (s : string) (acc : Z) :
  parse_decimal (String "." s) acc = parse_fraction s acc 1.
Proof. reflexivity. Qed.

Lemma parse_fraction_digit (c : ascii) (s : string) (acc : Z) (scale : positive) :
  is_digit c = true ->
  parse_fraction (String c s) acc scale
  = parse_fraction s (10 * acc + digit_value c) (10 * scale).
Proof. intros Hc. simpl. rewrite Hc. reflexivity. Qed.

(** Three digits after the point are read back as thousandths. *)
Lemma parse_fraction_3 (n : Z) :
  0 <= n ->
  parse_decimal
    (String "." (String (digit_char (n / 100 mod 10))
                (String (digit_char (n / 10 mod 10))
                (String (digit_char (n mod 10)) EmptyString)))) (n / 1000)
  = Some (n # 1000).
Proof.
  intros Hn.
  destruct (digit_char_spec (n / 100 mod 10)) as [Hd1 Hv1];
    [apply Z.mod_pos_bound; lia|].
  destruct (digit_char_spec (n / 10 mod 10)) as [Hd2 Hv2];
    [apply Z.mod_pos_bound; lia|].
  destruct (digit_char_spec (n mod 10)) as [Hd3 Hv3];
    [apply Z.mod_pos_bound; lia|].
  rewrite parse_decimal_point.
  rewrite !parse_fraction_digit by assumption.
  rewrite Hv1, Hv2, Hv3. simpl parse_fraction.
  change (10 * (10 * (10 * 1)))%positive with 1000%positive.
  assert (H100 : n / 100 = n / 10 / 10) by (rewrite Z.div_div by lia; reflexivity).
  assert (H1000 : n / 1000 = n / 100 / 10) by (rewrite Z.div_div by lia; reflexivity).
  pose proof (Z.div_mod n 10 ltac:(lia)) as E1.
  pose proof (Z.div_mod (n / 10) 10 ltac:(lia)) as E2.
  pose proof (Z.div_mod (n / 100) 10 ltac:(lia)) as E3.
  f_equal. f_equal. lia.
Qed.

(** The number of thousandths of a fraction, in integers. *)
Lemma thousandths_fraction (a : Z) (p : positive) :
  thousandths (a # p) = (2000 * Z.abs a + Zpos p) / (2 * Zpos p).
Proof.
  unfold thousandths, Qabs, Qmult, Qplus, Qfloor. cbn [Qnum Qden].
  f_equal; lia.
Qed.

Lemma thousandths_nonneg (x : Q) : 0 <= thousandths x.
Proof.
  destruct x as [a p]. rewrite thousandths_fraction.
  apply Z.div_pos; lia.
Qed.

(** The text of a value with three decimals is read as the decimal of
    its thousandths, rounded to the format. *)
Lemma parse_floating_fixed3 (prec emax : Z) (x : Q) :
  parse_floating prec emax (String_fixed3 x)
  = Some (round_decimal prec emax
            ((Qnum x <? 0) && (0 <? thousandths x)) (thousandths x # 1000)).
Proof.
  pose proof (thousandths_nonneg x) as Hn.
  unfold String_fixed3.
  set (n := thousandths x) in *.
  set (frac := String "." _).
  assert (Hdec : parse_unsigned_decimal (utoa 10 (n / 1000) +:+ frac)
                 = Some (n # 1000)).
  { assert (Hq : 0 <= n / 1000) by (apply Z.div_pos; lia).
    destruct (utoa_head (n / 1000) Hq) as (c & s & Heq & _).
    unfold parse_unsigned_decimal.
    rewrite Heq, append_cons, <- append_cons, <- Heq.
    rewrite (read_utoa parse_decimal parse_decimal_digit _ Hq).
    apply parse_fraction_3; assumption. }
  destruct ((Qnum x <? 0) && (0 <? n)).
  - rewrite append_cons, append_nil_l. unfold parse_floating.
    change (Ascii.eqb "-" "-") with true. cbv iota.
    rewrite Hdec. reflexivity.
  - rewrite append_nil_l.
    assert (Hq : 0 <= n / 1000) by (apply Z.div_pos; lia).
    destruct (utoa_head (n / 1000) Hq) as (c & s & Heq & Hc).
    rewrite Heq in *. rewrite append_cons in *.
    unfold parse_floating. rewrite (not_minus_of_digit c Hc), Hdec. reflexivity.
Qed.

(** The text depends on the sign and on the number of thousandths. *)
Lemma String_fixed3_ext (x y : Q) :
  thousandths x = thousandths y ->
  (Qnum x <? 0) && (0 <? thousandths x) = (Qnum y <? 0) && (0 <? thousandths y) ->
  String_fixed3 x = String_fixed3 y.
Proof. intros Hn Hs. unfold String_fixed3. rewrite Hs, Hn. reflexivity. Qed.

Lemma close_fraction (X X' Y Y' W A P : Z) :
  0 < P -> 0 < Y -> 0 < Y' -> W * Y' = X' * P -> A * Y = X * P ->
  Z.abs (W - A) * 1000 < P ->
  Z.abs (X' * Y - X * Y') * 1000 < Y' * Y.
Proof.
  intros HP HY HY' HW HA Hclose.
  assert (Heq : (X' * Y - X * Y') * P = (W - A) * (Y' * Y)).
  { transitivity (X' * P * Y - X * P * Y'); [ring|].
    rewrite <- HW, <- HA. ring. }
  assert (HYY : 0 < Y' * Y) by (apply Z.mul_pos_pos; assumption).
  apply (Z.mul_lt_mono_pos_r P); [assumption|].
  replace (Z.abs (X' * Y - X * Y') * 1000 * P)
    with (Z.abs ((X' * Y - X * Y') * P) * 1000)
    by (rewrite Z.abs_mul, (Z.abs_eq P) by lia; ring).
  rewrite Heq, Z.abs_mul, (Z.abs_eq (Y' * Y)) by lia.
  replace (Z.abs (W - A) * (Y' * Y) * 1000)
    with (Z.abs (W - A) * 1000 * (Y' * Y)) by ring.
  rewrite (Z.mul_comm (Y' * Y) P).
  apply Z.mul_lt_mono_pos_r; assumption.
Qed.

Section floating.

Context (prec emax : Z) (Hprec : 0 < prec) (Hemax : prec < emax).

Local Abbreviation emin := (SpecFloat.emin prec emax).

(** The fraction of a float of the format and its value in units of
    [2^emin]. *)
Lemma scaled_fraction (m : positive) (e : Z) :
  emin <= e ->
  0 < 2 ^ Z.max 0 (- e)
  /\ Zpos m * 2 ^ (e - emin) * 2 ^ Z.max 0 (- e)
     = Zpos m * 2 ^ Z.max 0 e * 2 ^ (- emin).
Proof.
  intros He.
  assert (Hemin : emin <= 0) by (rewrite (RoundingFacts.emin_spec prec emax); lia).
  split; [apply RoundingFacts.pow2_pos; lia|].
  rewrite <- !Z.mul_assoc, <- !Z.pow_add_r by lia.
  f_equal. f_equal. lia.
Qed.

Lemma thousandths_float (s : bool) (m : positive) (e : Z) (v : Q) :
  emin <= e -> SF2Q (S754_finite s m e) = Some v ->
  thousandths v
  = (2000 * (Zpos m * 2 ^ (e - emin)) + 2 ^ (- emin)) / (2 * 2 ^ (- emin)).
Proof.
  intros He Hv. injection Hv as <-.
  assert (Hemin : emin <= 0) by (rewrite (RoundingFacts.emin_spec prec emax); lia).
  destruct (scaled_fraction m e He) as [HY Hscaled].
  assert (HX : 0 < Zpos m * 2 ^ Z.max 0 e).
  { apply Z.mul_pos_pos; [lia|apply RoundingFacts.pow2_pos; lia]. }
  rewrite thousandths_fraction, Z2Pos.id by assumption.
  replace (Z.abs (cond_Zopp s (Zpos m * 2 ^ Z.max 0 e)))
    with (Zpos m * 2 ^ Z.max 0 e) by (destruct s; simpl cond_Zopp; lia).
  set (c := 2 ^ (- emin - Z.max 0 (- e))).
  assert (Hc : 0 < c) by (apply RoundingFacts.pow2_pos; lia).
  assert (HP : 2 ^ (- emin) = c * 2 ^ Z.max 0 (- e)).
  { unfold c. rewrite <- Z.pow_add_r by lia. f_equal. lia. }
  assert (HA : Zpos m * 2 ^ (e - emin) = c * (Zpos m * 2 ^ Z.max 0 e)).
  { apply (Z.mul_cancel_r _ _ (2 ^ Z.max 0 (- e))); [lia|].
    rewrite Hscaled, HP. ring. }
  rewrite HA, HP.
  replace (2000 * (c * (Zpos m * 2 ^ Z.max 0 e)) + c * 2 ^ Z.max 0 (- e))
    with (c * (2000 * (Zpos m * 2 ^ Z.max 0 e) + 2 ^ Z.max 0 (- e))) by ring.
  replace (2 * (c * 2 ^ Z.max 0 (- e))) with (c * (2 * 2 ^ Z.max 0 (- e))) by ring.
  rewrite Z.div_mul_cancel_l by lia. reflexivity.
Qed.

(** A finite float of the format, written with three decimals and read
    back, is a finite float of the format less than [1/1000] away, and
    it is written with the same three decimals. *)
Lemma floating_roundtrip (x : spec_float) (vx : Q) :
  SpecFloat.valid_binary prec emax x = true -> SF2Q x = Some vx ->
  exists (y : spec_float) (vy : Q),
    parse_floating prec emax (String_floating x) = Some y
    /\ SpecFloat.valid_binary prec emax y = true
    /\ SF2Q y = Some vy
    /\ (Qabs (vy - vx) < 1 # 1000)%Q
    /\ String_floating y = String_floating x.
Proof.
  intros Hvalid Hvx.
  assert (Hemin : emin <= 0) by (rewrite (RoundingFacts.emin_spec prec emax); lia).
  assert (Htext : String_floating x = String_fixed3 vx).
  { destruct x; try discriminate; unfold String_floating; rewrite Hvx; reflexivity. }
  rewrite Htext, parse_floating_fixed3.
  pose proof (thousandths_nonneg vx) as Hn.
  destruct (Z.eq_dec (thousandths vx) 0) as [Hzero|Hpos].
  - (* less than half a thousandth: the text is "0.000" *)
    exists (S754_zero false), 0%Q.
    rewrite Hzero. change (0 <? 0) with false. rewrite andb_false_r.
    split; [reflexivity|]. split; [reflexivity|]. split; [reflexivity|].
    split.
    + destruct vx as [a p]. rewrite thousandths_fraction in Hzero.
      assert (Hlt : 2000 * Z.abs a + Zpos p < 2 * Zpos p).
      { apply Z.div_small_iff in Hzero; lia. }
      apply Qabs_Qlt_condition. unfold Qlt, Qminus, Qplus, Qopp.
      cbn [Qnum Qden]. lia.
    + change (String_floating (S754_zero false)) with (String_fixed3 0%Q).
      apply String_fixed3_ext; [rewrite Hzero; reflexivity|].
      rewrite Hzero. change (0 <? 0) with false.
      rewrite (andb_false_r (Qnum vx <? 0)). reflexivity.
  - destruct x as [s|s| |s m e]; try discriminate.
    { injection Hvx as <-. exfalso. apply Hpos. reflexivity. }
    cbn [SpecFloat.valid_binary] in Hvalid.
    destruct (RoundingFacts.bounded_spec prec emax Hprec m e Hvalid)
      as [He Hm].
    pose proof (thousandths_float s m e vx ltac:(lia) Hvx) as Hthousandths.
    destruct (scaled_fraction m e ltac:(lia)) as [HY Hscaled].
    set (A := Zpos m * 2 ^ (e - emin)) in *.
    set (P := 2 ^ (- emin)) in *.
    assert (HP : 0 < P) by (apply RoundingFacts.pow2_pos; lia).
    destruct (thousandths vx) as [|n|n] eqn:Hnx; [lia| |lia].
    assert (Hbounds : 2 * Zpos n * P <= 2000 * A + P < 2 * (Zpos n + 1) * P).
    { pose proof (Z.div_mod (2000 * A + P) (2 * P) ltac:(lia)) as Hdm.
      pose proof (Z.mod_pos_bound (2000 * A + P) (2 * P) ltac:(lia)) as Hr.
      rewrite <- Hthousandths in Hdm.
      replace (2 * Zpos n * P) with (2 * P * Zpos n) by ring.
      replace (2 * (Zpos n + 1) * P) with (2 * P * Zpos n + 2 * P) by ring.
      lia. }
    assert (Hsign : (Qnum vx <? 0) = s).
    { injection Hvx as <-. cbn [Qnum].
      assert (0 < Zpos m * 2 ^ Z.max 0 e)
        by (apply Z.mul_pos_pos; [lia|apply RoundingFacts.pow2_pos; lia]).
      destruct s; simpl cond_Zopp; [apply Z.ltb_lt|apply Z.ltb_ge]; lia. }
    rewrite Hsign, andb_true_r.
    destruct (RoundingFacts.round_trip_scaled prec emax Hprec Hemax s m e n
                Hvalid Hbounds)
      as (m' & e' & Hround & Hvalid' & Hclose & Hbounds').
    destruct (RoundingFacts.bounded_spec prec emax Hprec m' e' Hvalid')
      as [He' Hm'].
    destruct (scaled_fraction m' e' ltac:(lia)) as [HY' Hscaled'].
    exists (S754_finite s m' e').
    eexists. split; [|split; [exact Hvalid'|split; [reflexivity|]]].
    { unfold round_decimal. cbn [Qnum Qden]. rewrite Hround. reflexivity. }
    fold A P in Hclose, Hbounds'.
    set (W := Zpos m' * 2 ^ (e' - emin)) in *.
    assert (Hthousandths' :
              thousandths (cond_Zopp s (Zpos m' * 2 ^ Z.max 0 e')
                           # Z.to_pos (2 ^ Z.max 0 (- e'))) = Zpos n).
    { rewrite (thousandths_float s m' e' _ ltac:(lia) eq_refl).
      fold W P. symmetry.
      apply Z.div_unique with (r := 2000 * W + P - 2 * P * Zpos n); lia. }
    split.
    + injection Hvx as <-.
      apply Qabs_Qlt_condition. unfold Qlt, Qminus, Qplus, Qopp.
      cbn [Qnum Qden]. rewrite !Pos2Z.inj_mul, !Z2Pos.id by assumption.
      pose proof (close_fraction (Zpos m * 2 ^ Z.max 0 e)
                    (Zpos m' * 2 ^ Z.max 0 e')
                    (2 ^ Z.max 0 (- e)) (2 ^ Z.max 0 (- e')) W A P
                    HP HY HY' Hscaled' Hscaled Hclose) as Hq.
      set (X := Zpos m * 2 ^ Z.max 0 e) in *.
      set (X' := Zpos m' * 2 ^ Z.max 0 e') in *.
      set (Y := 2 ^ Z.max 0 (- e)) in *.
      set (Y' := 2 ^ Z.max 0 (- e')) in *.
      clearbody X X' Y Y'. clear - Hq.
      destruct s; simpl cond_Zopp; lia.
    + change (String_floating (S754_finite s m' e'))
        with (String_fixed3 (cond_Zopp s (Zpos m' * 2 ^ Z.max 0 e')
                             # Z.to_pos (2 ^ Z.max 0 (- e')))).
      apply String_fixed3_ext; [rewrite Hthousandths', Hnx; reflexivity|].
      rewrite Hthousandths', Hnx, Hsign. f_equal.
      cbn [Qnum].
      assert (0 < Zpos m' * 2 ^ Z.max 0 e')
        by (apply Z.mul_pos_pos; [lia|apply RoundingFacts.pow2_pos; lia]).
      destruct s; simpl cond_Zopp; [apply Z.ltb_lt|apply Z.ltb_ge]; lia.
Qed.

End floating.

(** The same for the float that [convert] returns. *)
Lemma convert_floating (prec emax : Z) (x : spec_float) (vx : Q) :
  0 < prec -> prec < emax ->
  SpecFloat.valid_binary prec emax x = true -> SF2Q x = Some vx ->
  let y :=
    default (S754_zero false) (parse_floating prec emax (String_floating x)) in
  exists vy : Q,
    SpecFloat.valid_binary prec emax y = true
    /\ SF2Q y = Some vy
    /\ (Qabs (vy - vx) < 1 # 1000)%Q
    /\ String_floating y = String_floating x.
Proof.
  intros Hprec Hemax Hvalid Hvx y.
  destruct (floating_roundtrip prec emax Hprec Hemax x vx Hvalid Hvx)
    as (y' & vy & Hparse & Hvalid' & Hvy & Hclose & Htext).
  unfold y. rewrite Hparse. exists vy. repeat split; assumption.
Qed.

(** The bound of a thousandth is not one of half a thousandth: the
    double [2^42 + 2^-4] is written "4398046511104.063", which is read
    as the double [2^42 + 2^-4 + 2^-10]. *)
Lemma double_read_back_rounds :
  serialize TDouble (S754_finite false 4503599627370560 (-10))
  = "4398046511104.063"
  /\ convert TDouble "4398046511104.063"
     = S754_finite false 4503599627370561 (-10).
Proof. split; vm_compute; reflexivity. Qed.



End SerializeFacts.

(** ** Enumeration-backed [convert] *)

Module OptionsFacts.

Import settings.

Section options.

Context {T : Type} (static_cast_T : Z -> T) (Underlying : IntType).
Context (check : string -> (string -> Z) -> Numeric).

Local Abbreviation convert_options :=
  (convert_options static_cast_T Underlying check).
Local Abbreviation loop := (convert_options_loop static_cast_T).

(** With a number taken, only the numeric codes are compared. *)
Lemma loop_numeric (numeric : Numeric) (options : list (Enumeration T))
    (value : string) :
  _set numeric = true ->
  loop numeric options value
  = match List.find (fun it => enum_numeric it =? _value numeric) options with
    | Some _ => Some (static_cast_T (_value numeric))
    | None => None
    end.
Proof.
  intros Hset. induction options as [|it rest IH]; simpl; [reflexivity|].
  rewrite Hset. simpl.
  destruct (enum_numeric it =? _value numeric); [reflexivity|exact IH].
Qed.

(** With no number taken, only the keywords are compared. *)
Lemma loop_keyword (numeric : Numeric) (options : list (Enumeration T))
    (value : string) :
  _set numeric = false ->
  loop numeric options value
  = enum_value
      <$> List.find (fun it => String.eqb (enum_string it) value) options.
Proof.
  intros Hset. induction options as [|it rest IH]; simpl; [reflexivity|].
  rewrite Hset. simpl.
  destruct (String.eqb (enum_string it) value); [reflexivity|exact IH].
Qed.

(** With a number taken, the result depends on the numeric codes of the
    table only. *)
Lemma loop_numeric_codes (numeric : Numeric)
    (options options' : list (Enumeration T)) (value : string) :
  _set numeric = true ->
  enum_numeric <$> options' = enum_numeric <$> options ->
  loop numeric options' value = loop numeric options value.
Proof.
  intros Hset. revert options'.
  induction options as [|it rest IH]; intros [|it' rest'] Hcodes;
    try discriminate; [reflexivity|].
  injection Hcodes as Hcode Hrest. simpl.
  rewrite Hset, Hcode. simpl.
  destruct (enum_numeric it =? _value numeric); [reflexivity|].
  apply IH. exact Hrest.
Qed.

(** C4 (amended): an empty text yields the caller default.  For a
    non-empty text that parses as the underlying numeric type, the
    result is the value of the option with that numeric code, and
    the caller default when there is none: keywords are not
    compared.  For a non-empty text that does not parse so, the
    result is the value of the first option whose keyword is the
    text, and the caller default when there is none. *)
Theorem convert_options_resolution (options : list (Enumeration T))
    (value : string) (defaultValue : T) :
  (forall it, In it options -> static_cast_T (enum_numeric it) = enum_value it) ->
  convert_options options value defaultValue
  = let numeric := check value (convert (TInt Underlying)) in
    if (String.length value =? 0)%nat then defaultValue
    else if _set numeric then
      match List.find (fun it => enum_numeric it =? _value numeric) options with
      | Some it => enum_value it
      | None => defaultValue
      end
    else
      match List.find (fun it => String.eqb (enum_string it) value) options with
      | Some it => enum_value it
      | None => defaultValue
      end.
Proof.
  intros Hcast. unfold settings.convert_options. cbv zeta.
  destruct (String.length value =? 0)%nat; simpl; [reflexivity|].
  destruct (_set (check value (convert (TInt Underlying)))) eqn:Hset.
  - rewrite loop_numeric by assumption.
    destruct (List.find _ options) as [it|] eqn:Hfind; [|reflexivity].
    apply find_some in Hfind as [Hin Hcode]. apply Z.eqb_eq in Hcode.
    simpl. rewrite <- Hcode. apply Hcast. assumption.
  - rewrite loop_keyword by assumption.
    destruct (List.find _ options); reflexivity.
Qed.

(** C10: once the text parses as the underlying numeric type,
    keywords are not compared: when no option has that numeric code
    the result is the caller default, whatever the keywords are (a
    table with the same numeric codes and any other keywords and values
    gives the same result); and an empty text yields the caller default
    for every table. *)
Theorem numeric_text_skips_keywords (options : list (Enumeration T))
    (value : string) (defaultValue : T) :
  _set (check value (convert (TInt Underlying))) = true ->
  (forall it, In it options ->
     enum_numeric it <> _value (check value (convert (TInt Underlying)))) ->
  convert_options options value defaultValue = defaultValue
  /\ (forall options',
        enum_numeric <$> options' = enum_numeric <$> options ->
        convert_options options' value defaultValue = defaultValue)
  /\ (forall options', convert_options options' EmptyString defaultValue
                       = defaultValue).
Proof.
  intros Hset Hnone.
  assert (Hdefault : convert_options options value defaultValue = defaultValue);
    [|split; [exact Hdefault|split; [|reflexivity]]].
  2:{ intros options' Hcodes.
      transitivity (convert_options options value defaultValue);
        [|exact Hdefault].
      unfold settings.convert_options.
      destruct (String.length value =? 0)%nat; simpl; [reflexivity|].
      rewrite (loop_numeric_codes _ options options') by assumption.
      reflexivity. }
  unfold settings.convert_options.
  destruct (String.length value =? 0)%nat; simpl; [reflexivity|].
  rewrite loop_numeric by assumption.
  destruct (List.find _ options) as [it|] eqn:Hfind; [|reflexivity].
  apply find_some in Hfind as [Hin Hcode]. apply Z.eqb_eq in Hcode.
  exfalso. exact (Hnone it Hin Hcode).
Qed.

End options.

Lemma convert_options_resolution_witness :
  convert_options Mode_cast Int (Numeric_check Int) digits_table "1" Off = On
  /\ convert_options Mode_cast Int (Numeric_check Int) digits_table "off" On = Off.
Proof.
  split;
    rewrite (convert_options_resolution Mode_cast Int (Numeric_check Int));
    try reflexivity;
    intros it [<-|[<-|[]]]; reflexivity.
Defined.

Lemma numeric_text_skips_keywords_witness :
  convert_options Mode_cast Int (Numeric_check Int) digits_table "7" Off = Off.
Proof.
  destruct (numeric_text_skips_keywords Mode_cast Int (Numeric_check Int)
              digits_table "7" Off) as (Hdefault & _).
  - reflexivity.
  - intros it [<-|[<-|[]]]; vm_compute; discriminate.
  - exact Hdefault.
Defined.

(** The text "7" parses as a number and is no numeric code of the
    table; it is the keyword of [On].  The order of the specification
    resolves it to [On], the code to the caller default. *)
Lemma keyword_not_tried_after_number :
  convert_options Mode_cast Int (Numeric_check Int) digits_table "7" Off
  <> resolve_as_specified Int (Numeric_check Int) digits_table "7" Off.
Proof. vm_compute. discriminate. Qed.

End OptionsFacts.

(** ** The typed accessor *)

Module AccessorFacts.

Import settings.

(** Empty text is malformed for every type. *)
Lemma parse_empty (T : SettingType) : parse T EmptyString = None.
Proof. destruct T; reflexivity. Qed.

(** The entry "relay" holds malformed text; read as an [int] with the
    caller default 0, the result is the default although the entry
    exists. *)
Lemma default_returned_with_entry_present :
  ~ (getSetting (TInt Int) {[ "relay" := "abc" ]} (Key_plain "relay") 0 = 0
     <-> get {[ "relay" := "abc" ]} (Key_value (Key_plain "relay")) = None).
Proof.
  intros [Hdefault _].
  assert (Hget : get {[ "relay" := "abc" ]} (Key_value (Key_plain "relay"))
                 = Some "abc") by apply lookup_singleton_eq.
  rewrite Hdefault in Hget; [discriminate|].
  unfold getSetting. rewrite Hget. reflexivity.
Qed.

(** C5 (amended): [getSetting<T>(key, default)] returns the default when
    no entry with that key exists; when an entry exists it returns
    [convert<T>] of the stored text, which for malformed or empty text
    is the zero/false value of [T] whatever the caller default is.
    Absence and malformed-but-present are therefore told apart by the
    result exactly when the caller default is not that zero value. *)
Theorem getSetting_spec (T : SettingType) (kvs : gmap string string)
    (key : Key) (defaultValue : value_of T) :
  getSetting T kvs key defaultValue
  = match get kvs (Key_value key) with
    | None => defaultValue
    | Some text => default (zero T) (parse T text)
    end
  /\ parse T EmptyString = None
  /\ (forall text, parse T text = None ->
        getSetting T (set (Key_value key) text kvs) key defaultValue = zero T
        /\ getSetting T (delete (Key_value key) kvs) key defaultValue
           = defaultValue
        /\ (getSetting T (set (Key_value key) text kvs) key defaultValue
            = getSetting T (delete (Key_value key) kvs) key defaultValue
            <-> defaultValue = zero T)).
Proof.
  split; [reflexivity|].
  split; [apply parse_empty|].
  intros text Hmalformed.
  assert (Hpresent : getSetting T (set (Key_value key) text kvs) key defaultValue
                     = zero T).
  { unfold getSetting, get, set. rewrite lookup_insert_eq.
    unfold convert. rewrite Hmalformed. reflexivity. }
  assert (Habsent : getSetting T (delete (Key_value key) kvs) key defaultValue
                    = defaultValue).
  { unfold getSetting, get. rewrite lookup_delete_eq. reflexivity. }
  rewrite Hpresent, Habsent. repeat split; congruence.
Qed.

Lemma getSetting_spec_witness :
  getSetting (TInt Int) (set "relay" "abc" ∅) (Key_plain "relay") 5 = 0
  /\ getSetting (TInt Int) (delete "relay" ∅) (Key_plain "relay") 5 = 5.
Proof.
  destruct (getSetting_spec (TInt Int) ∅ (Key_plain "relay") 5)
    as (_ & _ & Hmalformed).
  destruct (Hmalformed "abc") as (Hpresent & Habsent & _); [reflexivity|].
  split; [exact Hpresent | exact Habsent].
Defined.

End AccessorFacts.

(** ** Migration *)

Module MigrateFacts.

Import settings.

Section migration.

Context (version_key : Key) (CFG_VERSION : Z).
Context (accepts : gmap string string -> string -> string -> bool).

Local Abbreviation migrateVersion := (migrateVersion version_key).
Local Abbreviation migrate := (migrate version_key CFG_VERSION accepts).

(** Every callback is called once, in registration order, with the same
    version; each acts on the store the previous one left. *)
Lemma invoke_all_spec (version : Z) (callbacks : list MigrateVersionCallback) :
  forall (index : nat) (st : State),
    invoke_all version index callbacks st
    = {| kvs := foldl (fun store callback => callback version store)
                  (kvs st) callbacks;
         migrations := migrations st;
         calls := calls st
                  ++ ((fun i => (i, version)) <$> seq index (length callbacks)) |}.
Proof.
  induction callbacks as [|callback rest IH]; intros index st; simpl.
  - rewrite app_nil_r. destruct st; reflexivity.
  - rewrite IH. simpl. rewrite <- app_assoc. reflexivity.
Qed.

Lemma migrateVersion_after_set (store : gmap string string)
    (callbacks : list MigrateVersionCallback) (log : list (nat * Z)) :
  in_range Int CFG_VERSION ->
  migrateVersion
    {| kvs := set (Key_value version_key) (serialize (TInt Int) CFG_VERSION) store;
       migrations := callbacks;
       calls := log |}
  = CFG_VERSION.
Proof.
  intros Hrange. unfold settings.migrateVersion, getSetting, get, set. simpl.
  rewrite lookup_insert_eq.
  exact (SerializeFacts.integer_roundtrip Int CFG_VERSION Hrange).
Qed.


End migration.



End MigrateFacts.

(** ** Chains of conversions and the kilowatt-hour limit *)

Module ConvertChainFacts.

Import Ratio sensor.

(** Side conditions on the members of a concrete ratio. *)
Local Ltac ratio_side :=
  first [ reflexivity | assumption
        | vm_compute; split; first [reflexivity | discriminate] ].

(** A conversion to a finer (or the same) unit multiplies, modulo
    [2^32]. *)
Lemma Convert_finer (To From : Quantity uint32_t) (x : Z) :
  is_u32 (num (Divide To From)) -> den (Divide To From) = 1 ->
  Convert To From x = wrap32 (x * num (Divide To From)).
Proof.
  intros Hnum Hden.
  rewrite ConvertFacts.Convert_uint32
    by (rewrite ?Hden; unfold is_u32, UINT32_MAX in *; lia).
  rewrite Hden. apply Z.quot_1_r.
Qed.

(** A conversion to a coarser (or the same) unit divides. *)
Lemma Convert_coarser (To From : Quantity uint32_t) (x : Z) :
  num (Divide To From) = 1 -> 0 < den (Divide To From) <= UINT32_MAX ->
  is_u32 x ->
  Convert To From x = x / den (Divide To From).
Proof.
  intros Hnum Hden Hx.
  rewrite ConvertFacts.Convert_uint32
    by (rewrite ?Hnum; unfold is_u32, UINT32_MAX in *; lia).
  rewrite Hnum, Z.mul_1_r, wrap32_small by assumption.
  unfold is_u32 in Hx. apply Z.quot_div_nonneg; lia.
Qed.

(** Converting through the intermediate unit is converting directly:
    watt-seconds to watt-hours to kilowatt-hours truncates as the direct
    conversion does, and kilowatt-hours to watt-hours to watt-seconds
    wraps around as the direct conversion does. *)
Theorem Convert_chain (x : Z) :
  is_u32 x ->
  Convert KilowattHours WattHours (Convert WattHours WattSeconds x)
  = Convert KilowattHours WattSeconds x
  /\ Convert WattSeconds WattHours (Convert WattHours KilowattHours x)
     = Convert WattSeconds KilowattHours x.
Proof.
  intros Hx. pose proof Hx as [Hx0 Hx1]. unfold UINT32_MAX in Hx1. split.
  - rewrite (Convert_coarser WattHours WattSeconds x)
      by ratio_side.
    change (den (Divide WattHours WattSeconds)) with 3600.
    assert (Hq : is_u32 (x / 3600)).
    { unfold is_u32, UINT32_MAX.
      pose proof (Z.div_pos x 3600 Hx0 ltac:(lia)).
      pose proof (Z.div_le_upper_bound x 3600 4294967295 ltac:(lia) ltac:(lia)).
      lia. }
    rewrite (Convert_coarser KilowattHours WattHours (x / 3600))
      by ratio_side.
    rewrite (Convert_coarser KilowattHours WattSeconds x)
      by ratio_side.
    change (den (Divide KilowattHours WattHours)) with 1000.
    change (den (Divide KilowattHours WattSeconds)) with 3600000.
    rewrite Z.div_div by lia. reflexivity.
  - rewrite !Convert_finer
      by ratio_side.
    change (num (Divide WattHours KilowattHours)) with 1000.
    change (num (Divide WattSeconds WattHours)) with 3600.
    change (num (Divide WattSeconds KilowattHours)) with 3600000.
    unfold wrap32. rewrite Z.mul_mod_idemp_l by lia.
    f_equal. lia.
Qed.

Lemma Convert_chain_witness :
  Convert KilowattHours WattHours (Convert WattHours WattSeconds 7199999) = 1
  /\ Convert WattSeconds WattHours (Convert WattHours KilowattHours 1194)
     = 3432704.
Proof.
  destruct (Convert_chain 7199999) as [Hdown _];
    [unfold is_u32, UINT32_MAX; lia|].
  destruct (Convert_chain 1194) as [_ Hup];
    [unfold is_u32, UINT32_MAX; lia|].
  rewrite Hdown, Hup. vm_compute. split; reflexivity.
Defined.

(** [KwhLimit] is the bound of the exact range: a count of
    kilowatt-hours converts to watt-seconds without wrap-around, and
    comes back from watt-seconds unchanged, exactly when it is at most
    [KwhLimit]. *)
Theorem KwhLimit_bounds_exact_range (kwh : Z) :
  is_u32 kwh ->
  (kwh <= KwhLimit
   <-> Convert WattSeconds KilowattHours kwh = kwh * KwhMultiplier)
  /\ (kwh <= KwhLimit
      <-> Convert KilowattHours WattSeconds
            (Convert WattSeconds KilowattHours kwh) = kwh).
Proof.
  intros Hkwh. pose proof Hkwh as [H0 H1]. unfold UINT32_MAX in H1.
  rewrite (Convert_finer WattSeconds KilowattHours kwh)
    by ratio_side.
  change (num (Divide WattSeconds KilowattHours)) with 3600000.
  pose proof (wrap32_is_u32 (kwh * 3600000)) as Hw.
  rewrite (Convert_coarser KilowattHours WattSeconds)
    by ratio_side.
  change (den (Divide KilowattHours WattSeconds)) with 3600000.
  change KwhLimit with 1193. change KwhMultiplier with 3600000.
  unfold is_u32, UINT32_MAX in Hw.
  destruct (Z.le_gt_cases kwh 1193) as [Hle|Hgt].
  - rewrite wrap32_small by (unfold is_u32, UINT32_MAX; lia).
    rewrite Z.div_mul by lia. tauto.
  - assert (wrap32 (kwh * 3600000) / 3600000 <= 1193).
    { apply Z.lt_succ_r. apply Z.div_lt_upper_bound; lia. }
    split; split; intros; lia.
Qed.

Lemma KwhLimit_bounds_exact_range_witness :
  Convert WattSeconds KilowattHours 1193 = 1193 * KwhMultiplier
  /\ Convert KilowattHours WattSeconds (Convert WattSeconds KilowattHours 1194)
     <> 1194.
Proof.
  destruct (KwhLimit_bounds_exact_range 1193) as [[Hexact _] _];
    [unfold is_u32, UINT32_MAX; lia|].
  destruct (KwhLimit_bounds_exact_range 1194) as [_ [_ Hback]];
    [unfold is_u32, UINT32_MAX; lia|].
  split.
  - apply Hexact. vm_compute. discriminate.
  - intros Heq. apply Hback in Heq. vm_compute in Heq. apply Heq. reflexivity.
Defined.

(** A conversion between energy quantities whose reduced ratio has the
    numerator 1 (to the same or to a coarser unit) never wraps around:
    it is monotone, its result is at most its input, and converting to
    the same quantity changes nothing. *)
Theorem Convert_coarser_monotone (To From : Quantity uint32_t) (x y : Z) :
  In To energy_quantities -> In From energy_quantities ->
  num (Divide To From) = 1 ->
  is_u32 x -> is_u32 y -> x <= y ->
  Convert To From x <= Convert To From y
  /\ 0 <= Convert To From x <= x
  /\ (To = From -> Convert To From x = x).
Proof.
  intros HTo HFrom Hnum Hx Hy Hxy.
  pose proof (ConvertFacts.Divide_energy To From HTo HFrom) as Hok.
  unfold Divide_ok in Hok.
  repeat (apply andb_true_iff in Hok as [Hok ?]).
  repeat match goal with
         | H : (_ <? _) = true |- _ => apply Z.ltb_lt in H
         | H : (_ <=? _) = true |- _ => apply Z.leb_le in H
         | H : (_ =? _) = true |- _ => apply Z.eqb_eq in H
         end.
  rewrite !Convert_coarser by (try assumption; lia).
  pose proof Hx as [Hx0 _].
  split; [apply Z.div_le_mono; lia|].
  split.
  - split; [apply Z.div_pos; lia|].
    apply Z.div_le_upper_bound; nia.
  - intros Hsame. subst To.
    assert (Hd : den (Divide From From) = 1).
    { unfold energy_quantities in HFrom. simpl in HFrom.
      destruct HFrom as [Hq|[Hq|[Hq|[]]]]; rewrite <- Hq; reflexivity. }
    rewrite Hd. apply Z.div_1_r.
Qed.

Lemma Convert_coarser_monotone_witness :
  Convert WattHours WattSeconds 3599 <= Convert WattHours WattSeconds 3600.
Proof.
  apply (Convert_coarser_monotone WattHours WattSeconds 3599 3600);
    try (simpl; auto; fail); try reflexivity;
    unfold is_u32, UINT32_MAX; lia.
Defined.

End ConvertChainFacts.

(** ** Enumeration tables: [serialize] and [convert] together *)

Module EnumerationFacts.

Import settings.

(** In a list without two elements of the same key, the first element
    that satisfies a test which fixes the key is the element at hand. *)
Lemma find_keyed {A B : Type} (f : A -> B) (p : A -> bool) (l : list A) (a : A) :
  NoDup (f <$> l) -> a ∈ l -> p a = true ->
  (forall b, b ∈ l -> p b = true -> f b = f a) ->
  List.find p l = Some a.
Proof.
  induction l as [|b l IH]; intros Hnodup Hin Hpa Hkey.
  - inversion Hin.
  - rewrite fmap_cons in Hnodup. apply NoDup_cons in Hnodup as [Hfresh Hnodup].
    simpl. destruct (p b) eqn:Hpb.
    + apply elem_of_cons in Hin as [->|Hin]; [reflexivity|].
      exfalso. apply Hfresh.
      rewrite (Hkey b) by (assumption || left).
      apply list_elem_of_fmap_2. assumption.
    + apply elem_of_cons in Hin as [->|Hin]; [congruence|].
      apply IH; try assumption.
      intros b' Hb'. apply Hkey. right. assumption.
Qed.

Lemma find_elem_of {A : Type} (p : A -> bool) (l : list A) (a : A) :
  List.find p l = Some a -> a ∈ l /\ p a = true.
Proof.
  intros Hfind. apply find_some in Hfind as [Hin Hp].
  split; [apply list_elem_of_In|]; assumption.
Qed.

Lemma find_none_elem_of {A : Type} (p : A -> bool) (l : list A) (a : A) :
  List.find p l = None -> a ∈ l -> p a = false.
Proof.
  intros Hfind Hin. apply (find_none p l Hfind). apply list_elem_of_In. assumption.
Qed.

Lemma length_nonempty (s : string) :
  s <> EmptyString -> (String.length s =? 0)%nat = false.
Proof. destruct s; [congruence|reflexivity]. Qed.

Section tables.

Context {T : Type} `{EqDecision T}.
Context (static_cast_T : Z -> T) (Underlying : IntType).
Context (check : string -> (string -> Z) -> Numeric).

Local Abbreviation convert_options :=
  (convert_options static_cast_T Underlying check).

(** A keyword that [serialize] returns belongs to an option with the
    value. *)
Lemma serialize_options_elem (options : list (Enumeration T)) (value : T) :
  serialize_options options value <> EmptyString ->
  exists it, it ∈ options /\ enum_value it = value
             /\ enum_string it = serialize_options options value.
Proof.
  induction options as [|it rest IH]; simpl; [congruence|].
  destruct (decide (enum_value it = value)) as [Heq|Hne].
  - intros _. exists it. split; [left|]. split; [assumption|reflexivity].
  - intros Hs. destruct (IH Hs) as (it' & Hin & Hv & Hk).
    exists it'. split; [right; assumption|]. split; assumption.
Qed.

Lemma serialize_options_absent (options : list (Enumeration T)) (value : T) :
  (forall it, it ∈ options -> enum_value it <> value) ->
  serialize_options options value = EmptyString.
Proof.
  induction options as [|it rest IH]; intros Habsent; simpl; [reflexivity|].
  destruct (decide (enum_value it = value)) as [Heq|Hne].
  - exfalso. apply (Habsent it); [left|assumption].
  - apply IH. intros it' Hin. apply Habsent. right. assumption.
Qed.

(** With pairwise different values, [serialize] of an option's value is
    the option's keyword. *)
Lemma serialize_options_own (options : list (Enumeration T))
    (it : Enumeration T) :
  NoDup (enum_value <$> options) -> it ∈ options ->
  serialize_options options (enum_value it) = enum_string it.
Proof.
  induction options as [|b rest IH]; intros Hnodup Hin; [inversion Hin|].
  rewrite fmap_cons in Hnodup. apply NoDup_cons in Hnodup as [Hfresh Hnodup].
  simpl. destruct (decide (enum_value b = enum_value it)) as [Heq|Hne].
  - apply elem_of_cons in Hin as [->|Hin]; [reflexivity|].
    exfalso. apply Hfresh. rewrite Heq.
    apply list_elem_of_fmap_2. assumption.
  - apply elem_of_cons in Hin as [->|Hin]; [congruence|].
    apply IH; assumption.
Qed.

(** Writing a value as its keyword and reading the keyword back gives
    the value: for a table with pairwise different keywords, whenever
    the keyword that [serialize] returns is not empty and is not taken
    as a number. *)
Theorem serialize_then_convert (options : list (Enumeration T))
    (value defaultValue : T) :
  NoDup (enum_string <$> options) ->
  serialize_options options value <> EmptyString ->
  _set (check (serialize_options options value) (convert (TInt Underlying)))
  = false ->
  convert_options options (serialize_options options value) defaultValue
  = value.
Proof.
  intros Hnodup Hnonempty Hkeyword.
  destruct (serialize_options_elem options value Hnonempty)
    as (it & Hin & Hvalue & Hstring).
  unfold settings.convert_options.
  rewrite (length_nonempty _ Hnonempty). simpl.
  rewrite OptionsFacts.loop_keyword by assumption.
  assert (Hfind : List.find
                    (fun it' => String.eqb (enum_string it')
                                  (serialize_options options value)) options
                  = Some it).
  { apply (find_keyed enum_string); try assumption.
    - apply String.eqb_eq. exact Hstring.
    - intros b _ Hb. apply String.eqb_eq in Hb. congruence. }
  rewrite Hfind. simpl. exact Hvalue.
Qed.

(** Reading a keyword and writing the value back gives the keyword: for
    a table with pairwise different values, whenever the text is the
    keyword of an option, is not empty and is not taken as a number. *)
Theorem convert_then_serialize (options : list (Enumeration T))
    (text : string) (defaultValue : T) :
  NoDup (enum_value <$> options) ->
  text ∈ enum_string <$> options ->
  text <> EmptyString ->
  _set (check text (convert (TInt Underlying))) = false ->
  serialize_options options (convert_options options text defaultValue)
  = text.
Proof.
  intros Hnodup Hin Hnonempty Hkeyword.
  unfold settings.convert_options.
  rewrite (length_nonempty _ Hnonempty). simpl.
  rewrite OptionsFacts.loop_keyword by assumption.
  destruct (List.find _ options) as [it|] eqn:Hfind.
  - apply find_elem_of in Hfind as [Hit Hstring].
    apply String.eqb_eq in Hstring. simpl.
    rewrite serialize_options_own by assumption. exact Hstring.
  - apply list_elem_of_fmap in Hin as (it & -> & Hit).
    pose proof (find_none_elem_of _ _ it Hfind Hit) as Hno.
    cbv beta in Hno. rewrite String.eqb_refl in Hno. discriminate.
Qed.

(** A value that no option of the table has is written as the empty
    text, and the empty text is read as the caller default. *)
Theorem value_outside_table (options : list (Enumeration T))
    (value defaultValue : T) :
  (forall it, it ∈ options -> enum_value it <> value) ->
  serialize_options options value = EmptyString
  /\ convert_options options (serialize_options options value) defaultValue
     = defaultValue.
Proof.
  intros Habsent.
  rewrite (serialize_options_absent options value Habsent).
  split; reflexivity.
Qed.

(** [convert] never invents a value: its result is the caller default,
    or the value of an option of the table, or [static_cast<T>] of the
    numeric code of an option of the table. *)
Theorem convert_options_result (options : list (Enumeration T))
    (text : string) (defaultValue : T) :
  convert_options options text defaultValue = defaultValue
  \/ exists it, it ∈ options
       /\ (convert_options options text defaultValue = enum_value it
           \/ convert_options options text defaultValue
              = static_cast_T (enum_numeric it)).
Proof.
  unfold settings.convert_options.
  destruct (String.length text =? 0)%nat; simpl; [left; reflexivity|].
  destruct (_set (check text (convert (TInt Underlying)))) eqn:Hset.
  - rewrite OptionsFacts.loop_numeric by assumption.
    destruct (List.find _ options) as [it|] eqn:Hfind; [|left; reflexivity].
    apply find_elem_of in Hfind as [Hit Hcode]. apply Z.eqb_eq in Hcode.
    right. exists it. split; [assumption|]. right. simpl. congruence.
  - rewrite OptionsFacts.loop_keyword by assumption.
    destruct (List.find _ options) as [it|] eqn:Hfind; [|left; reflexivity].
    apply find_elem_of in Hfind as [Hit _].
    right. exists it. split; [assumption|]. left. reflexivity.
Qed.

(** For a table with pairwise different keywords the order of the
    options does not matter to [convert]. *)
Theorem convert_options_order (options options' : list (Enumeration T))
    (text : string) (defaultValue : T) :
  options ≡ₚ options' ->
  NoDup (enum_string <$> options) ->
  convert_options options' text defaultValue
  = convert_options options text defaultValue.
Proof.
  intros Hperm Hnodup.
  assert (Hnodup' : NoDup (enum_string <$> options')) by (rewrite <- Hperm; assumption).
  unfold settings.convert_options.
  destruct (String.length text =? 0)%nat; simpl; [reflexivity|].
  destruct (_set (check text (convert (TInt Underlying)))) eqn:Hset.
  - rewrite !OptionsFacts.loop_numeric by assumption.
    destruct (List.find _ options) as [it|] eqn:Hfind;
      destruct (List.find _ options') as [it'|] eqn:Hfind'; try reflexivity.
    + apply find_elem_of in Hfind as [Hit Hcode].
      rewrite Hperm in Hit.
      rewrite (find_none_elem_of _ _ it Hfind' Hit) in Hcode. discriminate.
    + apply find_elem_of in Hfind' as [Hit Hcode].
      rewrite <- Hperm in Hit.
      rewrite (find_none_elem_of _ _ it' Hfind Hit) in Hcode. discriminate.
  - rewrite !OptionsFacts.loop_keyword by assumption.
    destruct (List.find _ options) as [it|] eqn:Hfind.
    + apply find_elem_of in Hfind as [Hit Hstring].
      assert (Hfind' : List.find
                         (fun it' => String.eqb (enum_string it') text) options'
                       = Some it).
      { apply (find_keyed enum_string); try assumption.
        - rewrite <- Hperm. assumption.
        - intros b _ Hb. apply String.eqb_eq in Hb, Hstring. congruence. }
      rewrite Hfind'. reflexivity.
    + destruct (List.find _ options') as [it'|] eqn:Hfind'; [|reflexivity].
      apply find_elem_of in Hfind' as [Hit Hstring].
      rewrite <- Hperm in Hit.
      rewrite (find_none_elem_of _ _ it' Hfind Hit) in Hstring. discriminate.
Qed.

(** For a table with pairwise different values the order of the
    options does not matter to [serialize]. *)
Theorem serialize_options_order (options options' : list (Enumeration T))
    (value : T) :
  options ≡ₚ options' ->
  NoDup (enum_value <$> options) ->
  serialize_options options' value = serialize_options options value.
Proof.
  intros Hperm Hnodup.
  assert (Hnodup' : NoDup (enum_value <$> options')) by (rewrite <- Hperm; assumption).
  destruct (decide (Exists (fun it => enum_value it = value) options))
    as [Hsome|Hnone].
  - apply Exists_exists in Hsome as (it & Hit & <-).
    rewrite !serialize_options_own; try assumption; [reflexivity|].
    rewrite <- Hperm. assumption.
  - assert (Habsent : forall it, it ∈ options -> enum_value it <> value).
    { intros it Hit Hvalue. apply Hnone. apply Exists_exists. eauto. }
    rewrite !serialize_options_absent; try assumption; [reflexivity|].
    intros it Hit. apply Habsent. rewrite Hperm. assumption.
Qed.

End tables.

Lemma serialize_options_order_witness :
  serialize_options [Mode_option On "on"; Mode_option Off "off"] Off
  = serialize_options mode_table Off.
Proof.
  apply serialize_options_order.
  - apply perm_swap.
  - apply (bool_decide_unpack _). vm_compute. exact I.
Defined.

Lemma serialize_then_convert_witness :
  convert_options Mode_cast Int (Numeric_check Int) mode_table
    (serialize_options mode_table On) Off = On.
Proof.
  apply (serialize_then_convert Mode_cast Int (Numeric_check Int)
           mode_table On Off).
  - apply (bool_decide_unpack _). vm_compute. exact I.
  - vm_compute. discriminate.
  - vm_compute. reflexivity.
Defined.

Lemma convert_then_serialize_witness :
  serialize_options mode_table
    (convert_options Mode_cast Int (Numeric_check Int) mode_table "on" Off)
  = "on".
Proof.
  apply (convert_then_serialize Mode_cast Int (Numeric_check Int)
           mode_table "on" Off).
  - apply (bool_decide_unpack _). vm_compute. exact I.
  - apply (bool_decide_unpack _). vm_compute. exact I.
  - discriminate.
  - vm_compute. reflexivity.
Defined.

Lemma value_outside_table_witness :
  serialize_options [Mode_option Off "off"] On = EmptyString
  /\ convert_options Mode_cast Int (Numeric_check Int) [Mode_option Off "off"]
       (serialize_options [Mode_option Off "off"] On) Off = Off.
Proof.
  apply (value_outside_table Mode_cast Int (Numeric_check Int)
           [Mode_option Off "off"] On Off).
  intros it Hin. apply list_elem_of_singleton in Hin as ->. discriminate.
Defined.

Lemma convert_options_order_witness :
  convert_options Mode_cast Int (Numeric_check Int)
    [Mode_option On "on"; Mode_option Off "off"] "on" Off
  = convert_options Mode_cast Int (Numeric_check Int) mode_table "on" Off.
Proof.
  apply (convert_options_order Mode_cast Int (Numeric_check Int)).
  - apply perm_swap.
  - apply (bool_decide_unpack _). vm_compute. exact I.
Defined.

End EnumerationFacts.

(** ** Writing and reading a setting *)

Module SettingFacts.

Import settings.

Lemma parse_integer_String (t : IntType) (value : Z) :
  in_range t value ->
  parse_integer (String_of_integer t value) = Some value.
Proof.
  intros Hrange. unfold String_of_integer.
  destruct (is_signed t) eqn:Hsigned.
  - apply SerializeFacts.parse_integer_itoa.
  - apply SerializeFacts.parse_integer_utoa.
    unfold in_range, min_value in Hrange. rewrite Hsigned in Hrange. lia.
Qed.

(** After [setSetting<T>(key, value)] of an integer, [getSetting<T>] of
    the key is the value, whatever the caller default is; keys of
    another text read as before; and after [setSetting] of a [String],
    [getSetting<T>] of the key is [convert<T>] of the text. *)
Theorem setSetting_then_getSetting (t : IntType) (kvs : gmap string string)
    (key other : Key) (value defaultValue : Z) :
  in_range t value ->
  getSetting (TInt t) (setSetting t kvs key value) key defaultValue = value
  /\ (Key_value other <> Key_value key ->
      getSetting (TInt t) (setSetting t kvs key value) other defaultValue
      = getSetting (TInt t) kvs other defaultValue)
  /\ (forall (T : SettingType) (text : string) (d : value_of T),
        getSetting T (setSetting_String kvs key text) key d = convert T text).
Proof.
  intros Hrange. split; [|split].
  - unfold getSetting, setSetting, setSetting_String, get, set.
    rewrite lookup_insert_eq.
    apply SerializeFacts.parse_in_range; [|assumption].
    apply parse_integer_String. assumption.
  - intros Hother.
    unfold getSetting, setSetting, setSetting_String, get, set.
    rewrite lookup_insert_ne by congruence. reflexivity.
  - intros T text d.
    unfold getSetting, setSetting_String, get, set.
    rewrite lookup_insert_eq. reflexivity.
Qed.

Lemma setSetting_then_getSetting_witness :
  getSetting (TInt Short)
    (setSetting Short {[ "relay" := "abc" ]} (Key_indexed "relay" 1) (-32768))
    (Key_indexed "relay" 1) 7
  = -32768.
Proof.
  apply (setSetting_then_getSetting Short {[ "relay" := "abc" ]}
           (Key_indexed "relay" 1) (Key_plain "relay") (-32768) 7).
  unfold in_range, min_value, max_value. simpl. lia.
Defined.

End SettingFacts.
